(** * Incremental merge of contribution entries into the projects page

    A shallow embedding of [scripts/fetch_contributions.py].

    A Python [str] is modelled by its UTF-8 encoding, a list of 8-bit
    characters.  Substring search, slicing at offsets returned by a search
    and concatenation behave on the encoding as they do on code points.
    White space ([str.rstrip], [str.strip]) is the full set of [str.isspace],
    and a literal ASCII character of a pattern matches, under
    [re.IGNORECASE], every character that Python lets it match, also outside
    ASCII.  [str.lower] is modelled on ASCII text only: the statements that
    depend on it are about ASCII identifiers.  Files are read in text mode
    with universal newlines.  Indices are [Z] because [str.find] returns [-1]
    and the script does arithmetic on that result. *)

From Stdlib Require Import String Ascii List ZArith Lia Bool Arith.
From Stdlib Require Import DecimalString Permutation Sorted.
Import ListNotations.

Local Open Scope Z_scope.

(* ================================================================== *)
(** ** Python strings *)

Module PyStr.

Definition str := list ascii.

(** A literal of the script. *)
Definition lit (s : string) : str := list_ascii_of_string s.
Arguments lit s%_string.

Definition chr (n : nat) : ascii := ascii_of_nat n.

Definition NL : ascii := chr 10.

Definition len (s : str) : Z := Z.of_nat (length s).

Definition str_eqb (a b : str) : bool :=
  if list_eq_dec ascii_dec a b then true else false.

(** [s.startswith(p)] *)
Fixpoint startswith (p s : str) : bool :=
  match p, s with
  | [], _ => true
  | _ :: _, [] => false
  | a :: p', b :: s' => Ascii.eqb a b && startswith p' s'
  end.

(** Offset of the first occurrence of [sub] in [s]. *)
Fixpoint index (sub s : str) : option nat :=
  if startswith sub s then Some O
  else match s with
       | [] => None
       | _ :: t => option_map S (index sub t)
       end.

(** [sub in s] *)
Definition contains (sub s : str) : bool :=
  match index sub s with Some _ => true | None => false end.

(** Python's normalisation of a slice or search bound. *)
Definition clamp (s : str) (i : Z) : nat :=
  Z.to_nat (if i <? 0 then Z.max 0 (len s + i) else Z.min i (len s)).

(** [s.find(sub, start)] *)
Definition find_from (s sub : str) (start : Z) : Z :=
  if len s <? start then -1
  else match index sub (skipn (clamp s start) s) with
       | Some k => Z.of_nat (clamp s start + k)
       | None => -1
       end.

(** [s.find(sub)] *)
Definition find (s sub : str) : Z := find_from s sub 0.

(** [s[:b]], [s[a:]] and [s[a:b]] *)
Definition slice_to (s : str) (b : Z) : str := firstn (clamp s b) s.
Definition slice_from (s : str) (a : Z) : str := skipn (clamp s a) s.
Definition slice (s : str) (a b : Z) : str :=
  firstn (clamp s b - clamp s a) (skipn (clamp s a) s).

(** [s] without its prefix [p], when it starts with [p]. *)
Definition drop_prefix (p s : str) : option str :=
  if startswith p s then Some (skipn (length p) s) else None.

(** What is left of [s] after the first of the texts [vs] that it starts
    with. *)
Fixpoint drop_first (vs : list str) (s : str) : option str :=
  match vs with
  | [] => None
  | v :: vs' =>
      match drop_prefix v s with
      | Some t => Some t
      | None => drop_first vs' s
      end
  end.

(** The characters for which [str.isspace] holds, in UTF-8: U+0009 to
    U+000D, U+001C to U+0020, U+0085, U+00A0, U+1680, U+2000 to U+200A,
    U+2028, U+2029, U+202F, U+205F and U+3000. *)
Definition SPACES : list str :=
  map (map chr)
      [[9]; [10]; [11]; [12]; [13]; [28]; [29]; [30]; [31]; [32];
       [194; 133]; [194; 160]; [225; 154; 128];
       [226; 128; 128]; [226; 128; 129]; [226; 128; 130]; [226; 128; 131];
       [226; 128; 132]; [226; 128; 133]; [226; 128; 134]; [226; 128; 135];
       [226; 128; 136]; [226; 128; 137]; [226; 128; 138];
       [226; 128; 168]; [226; 128; 169]; [226; 128; 175];
       [226; 129; 159]; [227; 128; 128]]%nat.

(** Dropping white space from the start of a text; [spaces] are the
    encodings to drop and the fuel is the length of the text. *)
Fixpoint drop_spaces (spaces : list str) (fuel : nat) (s : str) : str :=
  match fuel with
  | O => s
  | S fuel' =>
      match drop_first spaces s with
      | Some t => drop_spaces spaces fuel' t
      | None => s
      end
  end.

(** [s.lstrip()] *)
Definition lstrip (s : str) : str := drop_spaces SPACES (length s) s.

(** [s.rstrip()]: the same on the text read backwards. *)
Definition rstrip (s : str) : str :=
  rev (drop_spaces (map (@rev ascii) SPACES) (length s) (rev s)).

(** The line breaks of a text file. *)
Definition CR : ascii := chr 13.

(** What reading in text mode returns for the bytes of a file: [\r\n] and
    [\r] become [\n] (universal newlines). *)
Fixpoint universal_newlines (s : str) : str :=
  match s with
  | [] => []
  | c :: t =>
      if Ascii.eqb c CR then
        match t with
        | d :: t' => if Ascii.eqb d NL then NL :: universal_newlines t'
                     else NL :: universal_newlines t
        | [] => [NL]
        end
      else c :: universal_newlines t
  end.

(** [str.lower] on ASCII text: the letters [A] to [Z] become [a] to [z] and
    every other ASCII character stays.  Python also lowers the cased letters
    outside ASCII; the statements that depend on [lower] are about ASCII
    identifiers. *)
Definition lower_char (c : ascii) : ascii :=
  let n := nat_of_ascii c in
  if ((65 <=? n) && (n <=? 90))%nat then ascii_of_nat (n + 32) else c.

(** [s.lower()] *)
Definition lower (s : str) : str := map lower_char s.

(** [s.split(sep)[-1]] for a one-character separator: the text after the
    last separator, the whole string when there is none. *)
Fixpoint last_segment_aux (sep : ascii) (s acc : str) : str :=
  match s with
  | [] => rev acc
  | c :: t => if Ascii.eqb c sep then last_segment_aux sep t []
              else last_segment_aux sep t (c :: acc)
  end.

Definition last_segment (sep : ascii) (s : str) : str :=
  last_segment_aux sep s [].

(** [s.replace(old, new)] for a non-empty [old]; the fuel is the length of
    the text still to scan. *)
Fixpoint replace_aux (fuel : nat) (old new s : str) : str :=
  match fuel with
  | O => s
  | S fuel' =>
      if startswith old s then new ++ replace_aux fuel' old new (skipn (length old) s)
      else match s with
           | [] => []
           | c :: t => c :: replace_aux fuel' old new t
           end
  end.

Definition replace (s old new : str) : str :=
  replace_aux (S (length s)) old new s.

(** Decimal rendering of a length, as an f-string prints it. *)
Definition of_nat (n : nat) : str :=
  lit (NilZero.string_of_uint (Nat.to_uint n)).

End PyStr.

Import PyStr.

(* ================================================================== *)
(** ** The fragment of [re] that the duplicate check uses *)

Module Re.

(** The pattern of the script is a sequence of three kinds of item. *)
Inductive item :=
| Char (c : ascii)      (** an escaped literal character *)
| Opt (c : ascii)       (** [c?] *)
| StarNot (c : ascii).  (** [[^c]*], for a character [c] that has no case *)

(** The characters outside ASCII that [re.IGNORECASE] lets an ASCII letter
    match, in UTF-8: U+0130 and U+0131 for [i], U+017F for [s], U+212A for
    [k].  No other ASCII character matches a character outside ASCII. *)
Definition other_cases (lo : ascii) : list str :=
  if Ascii.eqb lo "i" then [map chr [196; 176]; map chr [196; 177]]%nat
  else if Ascii.eqb lo "s" then [map chr [197; 191]]%nat
  else if Ascii.eqb lo "k" then [map chr [226; 132; 170]]%nat
  else [].

(** Matching the literal ASCII character [c] at the start of a text, under
    [re.IGNORECASE]: what is left of the text, when it matches.  An ASCII
    character of the text matches when it is [c] in either case. *)
Definition eat (c : ascii) (s : str) : option str :=
  match s with
  | x :: t =>
      if Ascii.eqb (lower_char c) (lower_char x) then Some t
      else drop_first (other_cases (lower_char c)) s
  | [] => None
  end.

(** Does a prefix of the text match the pattern? *)
Fixpoint match_here (r : list item) : str -> bool :=
  match r with
  | [] => fun _ => true
  | Char c :: r' =>
      fun s => match eat c s with
               | Some t => match_here r' t
               | None => false
               end
  | Opt c :: r' =>
      fun s => match eat c s with
               | Some t => match_here r' t
               | None => false
               end || match_here r' s
  | StarNot c :: r' =>
      fix star (s : str) : bool :=
        match_here r' s ||
        match s with
        | x :: t => negb (Ascii.eqb c x) && star t
        | [] => false
        end
  end.

(** [re.search(r, s, re.IGNORECASE) is not None] *)
Fixpoint search (r : list item) (s : str) : bool :=
  match_here r s ||
  match s with
  | _ :: t => search r t
  | [] => false
  end.

(** [re.escape(s)]: every character of [s] stands for itself. *)
Definition escape (s : str) : list item := map Char s.

End Re.

(* ================================================================== *)
(** ** Entries and the constants of the script *)

Record Entry := mkEntry {
  repo : str;
  description : str;
  pr_url : str;
  pr_count : nat
}.

(** [Dict[str, List[Dict]]]: the items in insertion order. *)
Definition Categorized := list (str * list Entry).

(** The heading of the section an earlier version of the script wrote.  The
    four characters after [## ] are not ASCII; they are given by the bytes
    of the source file. *)
Definition RECENT_SECTION : str :=
  lit "## " ++ map chr [239; 163; 191; 195; 188; 195; 156; 195; 175]%nat
            ++ lit " Recent Contributions".

Definition LAST_UPDATED : str :=
  NL :: lit "---" ++ NL :: NL :: lit "*Last updated:".

Definition notable_section : str := lit "## Notable Open-Source Contributions".

Definition common_names : list str :=
  [lit "galaxy"; lit "content"; lit "utils"; lit "tools"].

Definition section_pattern (category : str) : str := lit "### " ++ category.

Definition github_link (repo_name : str) : str := lit "github.com/" ++ repo_name.

(** The bullet line of an entry (lines 230 and 275). *)
Definition format_entry (e : Entry) : str :=
  lit "- **[" ++ repo e ++ lit "](https://github.com/" ++ repo e
    ++ lit ")** - " ++ description e ++ lit " ([PRs](" ++ pr_url e
    ++ lit "))" ++ [NL].

(** [rf"\*\*\[?[^]]*{re.escape(repo_short_name)}[^]]*\]?\*\*"] *)
Definition short_name_pattern (repo_short_name : str) : list Re.item :=
  [Re.Char "*"; Re.Char "*"; Re.Opt "["; Re.StarNot "]"]
    ++ Re.escape repo_short_name
    ++ [Re.StarNot "]"; Re.Opt "]"; Re.Char "*"; Re.Char "*"].

Definition repo_short_name (repo_name : str) : str :=
  lower (last_segment "/" repo_name).

Definition is_common_name (short : str) : bool :=
  existsb (str_eqb short) common_names.

(* ================================================================== *)
(** ** Pruning the old section (lines 202-212) *)

Definition prune (content : str) : str :=
  if contains RECENT_SECTION content then
    let start := find content RECENT_SECTION in
    let end_ := find_from content LAST_UPDATED start in
    if negb (end_ =? -1) then
      let end_ := find_from content [NL] (end_ + 20) in
      if negb (end_ =? -1) then
        rstrip (slice_to content start) ++ slice_from content end_
      else
        rstrip (slice_to content start)
    else content
  else content.

(* ================================================================== *)
(** ** The merge loop (lines 214-278) *)

(** What the loop prints.  The two skip messages have the same text; the
    reason records which of the two [print] statements was reached. *)
Inductive skip_reason := ExactLink | ShortName.

Inductive message :=
| NoNewContributions                               (* line 195 *)
| AddedCategory (category : str)                   (* line 234 *)
| Skipping (repo_name : str) (why : skip_reason)   (* lines 254, 266 *)
| AddedEntry (repo_name category : str)            (* line 278 *)
| Updated (file_path : str)                        (* line 283 *)
| NoChangesNeeded                                  (* line 285 *)
| ErrorUpdating                                    (* line 288 *)
| AIWarning (repo_name : str)                      (* line 71 *)
| ErrorFetching                                    (* line 104 *)
| Generating (repo_name : str)                     (* line 161 *)
| TokenNotSet                                      (* line 296 *)
| Fetching (username : str)                        (* line 299 *)
| FoundPRs (n : nat)                               (* line 305 *)
| ContributionsTo (n : nat)                        (* line 310 *)
| UpdateComplete                                   (* line 318 *)
| NoneInLast30Days.                                (* line 320 *)

(** The variables the loop assigns, and its output. *)
Record buffer := mkBuffer {
  content : str;
  modified : bool;
  printed : list message
}.

Definition splice (content : str) (insert_pos : Z) (new : str) : str :=
  slice_to content insert_pos ++ new ++ slice_from content insert_pos.

(** Lines 221-234: the category has no heading yet. *)
Definition create_category (category : str) (entries : list Entry)
    (b : buffer) : buffer :=
  if contains notable_section (content b) then
    let insert_pos := find (content b) notable_section + len notable_section in
    let insert_pos := find_from (content b) [NL] insert_pos + 1 in
    let new_section :=
      fold_left (fun acc entry => acc ++ format_entry entry) entries
                (NL :: lit "### " ++ category ++ [NL]) in
    mkBuffer (splice (content b) insert_pos new_section) true
             (printed b ++ [AddedCategory category])
  else b.

(** Lines 237-278: one iteration of the loop over the entries of a category
    whose heading exists. *)
Definition add_entry (category : str) (b : buffer) (entry : Entry) : buffer :=
  let repo_name := repo entry in
  let section_start := find (content b) (section_pattern category) in
  let next_section := find_from (content b) (NL :: lit "##") (section_start + 1) in
  let section_content :=
    if next_section =? -1 then slice_from (content b) section_start
    else slice (content b) section_start next_section in
  let short := repo_short_name repo_name in
  let skip why :=
    mkBuffer (content b) (modified b) (printed b ++ [Skipping repo_name why]) in
  let add :=
    let insert_pos := section_start + len section_content in
    let insert_pos := if negb (next_section =? -1) then next_section
                      else insert_pos in
    mkBuffer (splice (content b) insert_pos (format_entry entry)) true
             (printed b ++ [AddedEntry repo_name category]) in
  if contains (github_link repo_name) (content b) then skip ExactLink
  else if negb (is_common_name short) then
    if Re.search (short_name_pattern short) (content b) then skip ShortName
    else add
  else add.

(** Lines 216-278: the body of the loop over the categories. *)
Definition merge_category (b : buffer) (item : str * list Entry) : buffer :=
  let (category, entries) := item in
  if negb (contains (section_pattern category) (content b)) then
    create_category category entries b
  else
    fold_left (add_entry category) entries b.

Definition merge (categorized_entries : Categorized) (content : str) : buffer :=
  fold_left merge_category categorized_entries (mkBuffer content false []).

(* ================================================================== *)
(** ** Files and [update_projects_file] (lines 189-288) *)

(** What happens when a file is opened for writing and written. *)
Inductive write_outcome :=
| WriteOk                  (** the text is written *)
| OpenFails                (** [open] raises; the file is not touched *)
| WriteFails (kept : nat). (** the file is truncated by [open], then the
                               write raises after [kept] characters *)

(** A file system: the bytes of each file that can be read and decoded, and
    what writing to each path does.  Files are written with [\n] as the line
    separator, as on POSIX systems. *)
Record files := mkFiles {
  text : str -> option str;
  on_write : str -> write_outcome
}.

Definition store (fs : files) (file_path data : str) : files :=
  mkFiles (fun p => if str_eqb p file_path then Some data else text fs p)
          (on_write fs).

Inductive effect :=
| Print (m : message)
| OpenRead (file_path : str)
| OpenWrite (file_path : str)
| Write (file_path data : str)
| WriteFailed (file_path kept : str)  (** a write that raised *)
| SearchIssues (username : str)      (** a query to the issue search API *)
| ChatCompletion (repo_name : str).  (** a request to the model API *)

Definition default_path : str := lit "content/projects/index.md".

Definition update_projects_file (categorized_entries : Categorized)
    (file_path : str) (fs : files) : files * list effect :=
  match categorized_entries with
  | [] => (fs, [Print NoNewContributions])
  | _ :: _ =>
      match text fs file_path with
      | None => (fs, [OpenRead file_path; Print ErrorUpdating])
      | Some bytes =>
          let content0 := universal_newlines bytes in
          let b := merge categorized_entries (prune content0) in
          let prints := map Print (printed b) in
          if modified b then
            match on_write fs file_path with
            | WriteOk =>
                (store fs file_path (content b),
                 OpenRead file_path :: prints
                   ++ [OpenWrite file_path; Write file_path (content b);
                       Print (Updated file_path)])
            | OpenFails =>
                (fs, OpenRead file_path :: prints
                       ++ [OpenWrite file_path; Print ErrorUpdating])
            | WriteFails kept =>
                (store fs file_path (firstn kept (content b)),
                 OpenRead file_path :: prints
                   ++ [OpenWrite file_path;
                       WriteFailed file_path (firstn kept (content b));
                       Print ErrorUpdating])
            end
          else
            (fs, OpenRead file_path :: prints ++ [Print NoChangesNeeded])
      end
  end.

(* ================================================================== *)
(** ** Retrieval, grouping and description (lines 18-186) *)

Record PR := mkPR {
  html_url : str;
  title : str;
  body : option str;
  repository_url : str;
  labels : list str;
  merged_at : option str
}.

(** The two remote services.  [None] stands for a call that raised.  The
    search answers the query built from the user name (the date of the run is
    part of the service). *)
Record services := mkServices {
  search_issues : str -> option (list PR);
  chat_completion : str -> list PR -> option str
}.

Definition strip (s : str) : str := rstrip (lstrip s).

(** Lines 27-72 *)
Definition generate_project_description (sv : services) (repo_name : str)
    (prs : list PR) : option str * list effect :=
  match chat_completion sv repo_name (firstn 15 prs) with
  | Some answer => (Some (strip answer), [ChatCompletion repo_name])
  | None => (None, [ChatCompletion repo_name; Print (AIWarning repo_name)])
  end.

(** Lines 81-105 *)
Definition fetch_recent_prs (sv : services) (username : str)
    : list PR * list effect :=
  match search_issues sv username with
  | Some issues => (firstn 100 issues, [SearchIssues username])
  | None => ([], [SearchIssues username; Print ErrorFetching])
  end.

(** [d[k].append(v)] on a [defaultdict(list)] *)
Fixpoint dict_append {V : Type} (d : list (str * list V)) (k : str) (v : V)
    : list (str * list V) :=
  match d with
  | [] => [(k, [v])]
  | (k', vs) :: t =>
      if str_eqb k' k then (k', vs ++ [v]) :: t
      else (k', vs) :: dict_append t k v
  end.

(** Lines 107-121 *)
Definition group_prs_by_repo (username : str) (prs : list PR)
    : list (str * list PR) :=
  fold_left
    (fun grouped pr =>
       let repo_full_name :=
         replace (repository_url pr) (lit "https://api.github.com/repos/") [] in
       if startswith (username ++ lit "/") repo_full_name then grouped
       else dict_append grouped repo_full_name pr)
    prs [].

(** Lines 123-147 *)
Definition categorize_repo (repo_name : str) : str :=
  let repo_lower := lower repo_name in
  let any xs := existsb (fun x => contains x repo_lower) xs in
  if any [lit "galaxyproject/galaxy"; lit "bgruening/galaxytools";
          lit "galaxyproject/galaxy-hub";
          lit "galaxyproject/galaxy-visualizations";
          lit "galaxyproject/tools-iuc"; lit "galaxyproject/planemo";
          lit "bgruening/docker-galaxy"]
  then lit "Galaxy Project Core"
  else if any [lit "training-material"; lit "galaxyecology"]
  then lit "Galaxy Training & Community"
  else if any [lit "usegalaxy-eu/"; lit "vgcn"]
  then lit "UseGalaxy.eu Infrastructure"
  else if contains (lit "research-software-ecosystem") repo_lower
  then lit "Research Software Ecosystem"
  else lit "Other Open-Source Projects".

(** [sorted(items, key=lambda x: len(x[1]), reverse=True)]: stable, longest
    list first. *)
Fixpoint insert_by_count {K V : Type} (x : K * list V) (l : list (K * list V))
    : list (K * list V) :=
  match l with
  | [] => [x]
  | y :: t =>
      if (length (snd y) <? length (snd x))%nat then x :: y :: t
      else y :: insert_by_count x t
  end.

Definition sorted_by_count {K V : Type} (l : list (K * list V))
    : list (K * list V) :=
  fold_left (fun acc x => insert_by_count x acc) l [].

Definition fallback_description (n : nat) : str :=
  lit "Contributed " ++ of_nat n ++ lit " pull request"
    ++ (if (1 <? n)%nat then lit "s" else [])
    ++ lit " to improve functionality and fix issues.".

Definition pulls_url (repo_name username : str) : str :=
  lit "https://github.com/" ++ repo_name
    ++ lit "/pulls?q=is%3Apr+author%3A" ++ username ++ lit "+is%3Amerged".

(** Lines 149-186 *)
Definition generate_project_entries (sv : services) (username : str)
    (prs_by_repo : list (str * list PR)) : Categorized * list effect :=
  fold_left
    (fun (st : Categorized * list effect) (item : str * list PR) =>
       let (categorized, out) := st in
       let (repo_name, prs) := item in
       let (answer, calls) := generate_project_description sv repo_name prs in
       let description :=
         match answer with
         | Some ((_ :: _) as d) => d
         | _ => fallback_description (length prs)
         end in
       let entry := mkEntry repo_name description
                            (pulls_url repo_name username) (length prs) in
       (dict_append categorized (categorize_repo repo_name) entry,
        out ++ Print (Generating repo_name) :: calls))
    (sorted_by_count prs_by_repo) ([], []).

(* ================================================================== *)
(** ** [main] (lines 291-320) *)

Record world := mkWorld {
  environ : str -> option str;
  remote : services;
  disk : files
}.

Definition main (w : world) : files * list effect :=
  let username :=
    match environ w (lit "GITHUB_USERNAME") with
    | Some u => u
    | None => lit "arash77"
    end in
  match environ w (lit "GITHUB_TOKEN") with
  | None | Some [] => (disk w, [Print TokenNotSet])
  | Some (_ :: _) =>
      let (recent_prs, fetched) := fetch_recent_prs (remote w) username in
      let head := Print (Fetching username) :: fetched
                    ++ [Print (FoundPRs (length recent_prs))] in
      match recent_prs with
      | [] => (disk w, head ++ [Print NoneInLast30Days])
      | _ :: _ =>
          let prs_by_repo := group_prs_by_repo username recent_prs in
          let (project_entries, generated) :=
            generate_project_entries (remote w) username prs_by_repo in
          let (disk', updated) :=
            update_projects_file project_entries default_path (disk w) in
          (disk', head ++ Print (ContributionsTo (length prs_by_repo))
                    :: generated ++ updated ++ [Print UpdateComplete])
      end
  end.

(* ================================================================== *)
(** ** Vocabulary of the statements *)

(** [sub] occurs in [s]. *)
Definition occurs (sub s : str) : Prop := exists l r, s = l ++ sub ++ r.

(** The text has no line break. *)
Definition one_line (s : str) : Prop := ~ In NL s.

(** A message that reports an addition to the document. *)
Definition is_added (m : message) : bool :=
  match m with
  | AddedCategory _ | AddedEntry _ _ => true
  | _ => false
  end.

(** The data written to files during a run, in order. *)
Fixpoint writes (t : list effect) : list (str * str) :=
  match t with
  | [] => []
  | Write p d :: t' => (p, d) :: writes t'
  | _ :: t' => writes t'
  end.

(** Effects that reach outside the process. *)
Definition is_external (e : effect) : bool :=
  match e with
  | Print _ => false
  | _ => true
  end.

(** The heading of the category and the link of each of its entries are in
    the text. *)
Definition covered (text : str) (item : str * list Entry) : Prop :=
  contains (section_pattern (fst item)) text = true /\
  forall e, In e (snd item) -> contains (github_link (repo e)) text = true.

(** Every text without a line break that occurs in [a] occurs in [b]. *)
Definition keeps_lines (a b : str) : Prop :=
  forall s, one_line s -> contains s a = true -> contains s b = true.

(** The positions at which the script splices: the start or the end of the
    text, a line break, or the character after a line break. *)
Definition line_boundary (content : str) (z : Z) : Prop :=
  z = 0 \/ z = len content \/
  (0 <= z /\ exists r, skipn (Z.to_nat z) content = NL :: r) \/
  (0 < z /\ exists r, skipn (Z.to_nat (z - 1)) content = NL :: r).

(** [b'] continues [b]: the output grows at its end, the flag is raised
    exactly when an addition is reported, and the text changes only then. *)
Definition continues (b b' : buffer) : Prop :=
  exists extra,
    printed b' = printed b ++ extra /\
    modified b' = modified b || existsb is_added extra /\
    (existsb is_added extra = false -> content b' = content b).

(** The categories and repository names are single lines. *)
Definition single_lines (categorized_entries : Categorized) : Prop :=
  forall item, In item categorized_entries ->
    one_line (fst item) /\ forall e, In e (snd item) -> one_line (repo e).

(** The executable form of [one_line]. *)
Definition one_lineb (s : str) : bool := negb (existsb (Ascii.eqb NL) s).

(** The iteration over [e] ended at one of the two [continue] statements. *)
Definition skipped (category : str) (b : buffer) (e : Entry) : Prop :=
  exists why,
    add_entry category b e
    = mkBuffer (content b) (modified b) (printed b ++ [Skipping (repo e) why]).

(** The file is opened for writing or written. *)
Definition is_write_effect (e : effect) : bool :=
  match e with
  | OpenWrite _ | Write _ _ | WriteFailed _ _ => true
  | _ => false
  end.

(** From [b] to [b'] the text does not shrink, and the flag is raised only
    when the text has grown. *)
Definition grows (b b' : buffer) : Prop :=
  (length (content b) <= length (content b'))%nat /\
  (modified b' = true ->
   modified b = true \/ (length (content b) < length (content b'))%nat).

(** When the flag is raised, the text has the bullet line of an entry of the
    input. *)
Definition shows (categorized_entries : Categorized) (b : buffer) : Prop :=
  modified b = true ->
  exists item e, In item categorized_entries /\ In e (snd item) /\
                 occurs (format_entry e) (content b).

(** An addition is reported among the effects of a run. *)
Definition reports_addition (t : list effect) : bool :=
  existsb (fun e => match e with Print m => is_added m | _ => false end) t.

(** *** The words of the description, written out

    The definitions below say what "final path segment", "lower case" and
    "case ignored" mean without referring to the functions of the model. *)

Definition UPPER_CASE : str := lit "ABCDEFGHIJKLMNOPQRSTUVWXYZ".
Definition LOWER_CASE : str := lit "abcdefghijklmnopqrstuvwxyz".

(** The lower-case form of an ASCII character: for an upper-case letter the
    letter at the same place of the lower-case alphabet, otherwise the
    character itself. *)
Definition lowercase_of (x : ascii) : ascii :=
  match index [x] UPPER_CASE with
  | Some k => nth k LOWER_CASE x
  | None => x
  end.

(** [seg] is what follows the last [/] of [identifier], or all of it when
    it has none. *)
Definition final_segment (identifier seg : str) : Prop :=
  ~ In "/"%char seg /\
  (identifier = seg \/ exists pre, identifier = pre ++ "/"%char :: seg).

(** The texts that stand for the ASCII character [c] when case is ignored:
    [c] in either case and, as Python matches them, U+0130 and U+0131 for
    [i], U+017F for [s] and U+212A for [k] (given in UTF-8). *)
Definition stands_for (c : ascii) (v : str) : Prop :=
  (exists x, v = [x] /\ lowercase_of x = lowercase_of c) \/
  (lowercase_of c = "i"%char /\
   (v = map chr [196; 176]%nat \/ v = map chr [196; 177]%nat)) \/
  (lowercase_of c = "s"%char /\ v = map chr [197; 191]%nat) \/
  (lowercase_of c = "k"%char /\ v = map chr [226; 132; 170]%nat).

(** [name] is [short], case ignored. *)
Definition same_ignoring_case (short name : str) : Prop :=
  exists parts, Forall2 stands_for short parts /\ name = concat parts.

(** The texts a pattern matches, item by item. *)
Inductive matches : list Re.item -> str -> Prop :=
| matches_nil : matches [] []
| matches_char c v r s :
    stands_for c v -> matches r s -> matches (Re.Char c :: r) (v ++ s)
| matches_opt_one c v r s :
    stands_for c v -> matches r s -> matches (Re.Opt c :: r) (v ++ s)
| matches_opt_none c r s :
    matches r s -> matches (Re.Opt c :: r) s
| matches_star c xs r s :
    ~ In c xs -> matches r s -> matches (Re.StarNot c :: r) (xs ++ s).

(** The short name stands between two [**], with no closing bracket between
    the first [**] and the name nor between the name and the second [**],
    except for one that may come right before the second [**]. *)
Definition bold_mention (short text : str) : Prop :=
  exists pre x name y cb post,
    text = pre ++ lit "**" ++ x ++ name ++ y ++ cb ++ lit "**" ++ post /\
    (cb = [] \/ cb = lit "]") /\
    ~ In "]"%char x /\ ~ In "]"%char y /\
    same_ignoring_case short name.

(** ASCII text. *)
Definition is_ascii (s : str) : bool :=
  forallb (fun c => (nat_of_ascii c <? 128)%nat) s.

(** *** Lines *)

Definition is_break (c : ascii) : bool := Ascii.eqb c NL || Ascii.eqb c CR.

(** A text without [\n] and without [\r]. *)
Definition plain (s : str) : Prop := forall c, In c s -> is_break c = false.

Definition plainb (s : str) : bool := forallb (fun c => negb (is_break c)) s.

(** The lines of a text, cut at every [\n] and [\r]. *)
Fixpoint lines_from (s acc : str) : list str :=
  match s with
  | [] => [rev acc]
  | c :: t => if is_break c then rev acc :: lines_from t []
              else lines_from t (c :: acc)
  end.

Definition lines (s : str) : list str := lines_from s [].

(** The pattern matches inside one line of the text. *)
Definition line_search (r : list Re.item) (text : str) : bool :=
  existsb (Re.search r) (lines text).

(** The iteration over [e] ends at the second [continue] (line 267), and no
    match of the pattern lies inside one line of the text. *)
Definition spans_lines (b : buffer) (e : Entry) : bool :=
  negb (contains (github_link (repo e)) (content b))
  && negb (is_common_name (repo_short_name (repo e)))
  && Re.search (short_name_pattern (repo_short_name (repo e))) (content b)
  && negb (line_search (short_name_pattern (repo_short_name (repo e)))
                       (content b)).

(** Some entry of the run is skipped on a match that spans lines. *)
Fixpoint fragile_entries (category : str) (entries : list Entry) (b : buffer)
    : bool :=
  match entries with
  | [] => false
  | e :: rest =>
      spans_lines b e || fragile_entries category rest (add_entry category b e)
  end.

Fixpoint fragile_from (categorized_entries : Categorized) (b : buffer) : bool :=
  match categorized_entries with
  | [] => false
  | item :: rest =>
      (contains (section_pattern (fst item)) (content b)
       && fragile_entries (fst item) (snd item) b)
      || fragile_from rest (merge_category b item)
  end.

Definition fragile (categorized_entries : Categorized) (text : str) : bool :=
  fragile_from categorized_entries (mkBuffer text false []).

(** The category names and repository identifiers have no line break, and
    the identifiers are ASCII. *)
Definition plain_names (categorized_entries : Categorized) : bool :=
  forallb (fun item : str * list Entry =>
             plainb (fst item)
             && forallb (fun e => plainb (repo e) && is_ascii (repo e))
                        (snd item))
          categorized_entries.

(** The entry is taken for a duplicate in the text (lines 253-267). *)
Definition duplicate_in (text : str) (e : Entry) : Prop :=
  contains (github_link (repo e)) text = true \/
  (is_common_name (repo_short_name (repo e)) = false /\
   Re.search (short_name_pattern (repo_short_name (repo e))) text = true).

(** The entry is recognised in the text in a way that insertions at line
    boundaries and the reading of the file keep: by its link, or by a match
    of its pattern inside a text without line breaks. *)
Definition settled (text : str) (e : Entry) : Prop :=
  contains (github_link (repo e)) text = true \/
  (is_common_name (repo_short_name (repo e)) = false /\
   exists m, plain m /\ occurs m text /\
             Re.search (short_name_pattern (repo_short_name (repo e))) m = true).

(** [d.get(k)] on a dictionary kept as its items in insertion order. *)
Definition dict_get {V : Type} (d : list (str * list V)) (k : str)
    : option (list V) :=
  option_map snd (List.find (fun kv => str_eqb (fst kv) k) d).

(** The values that a loop appending [f x] for each [x] files under [k]. *)
Definition picks {A V : Type} (f : A -> option (str * V)) (k : str)
    (l : list A) : list V :=
  flat_map (fun x => match f x with
                     | Some (k', v) => if str_eqb k' k then [v] else []
                     | None => []
                     end) l.

(** A loop that appends to a [defaultdict(list)], skipping some items. *)
Definition collect {A V : Type} (f : A -> option (str * V)) (l : list A)
    (d : list (str * list V)) : list (str * list V) :=
  fold_left (fun d x => match f x with
                        | Some (k, v) => dict_append d k v
                        | None => d
                        end) l d.

(** The repository name the grouping reads off a pull request (line 113),
    and the test for the user's own repositories (line 116). *)
Definition repo_full_name (pr : PR) : str :=
  replace (repository_url pr) (lit "https://api.github.com/repos/") [].

Definition is_own (username : str) (pr : PR) : bool :=
  startswith (username ++ lit "/") (repo_full_name pr).

(** The five section names of [categorize_repo]. *)
Definition categories : list str :=
  [lit "Galaxy Project Core"; lit "Galaxy Training & Community";
   lit "UseGalaxy.eu Infrastructure"; lit "Research Software Ecosystem";
   lit "Other Open-Source Projects"].

(** The entry built for a repository and its pull requests (lines 164-182). *)
Definition entry_of (sv : services) (username : str) (item : str * list PR)
    : Entry :=
  mkEntry (fst item)
          match fst (generate_project_description sv (fst item) (snd item)) with
          | Some ((_ :: _) as d) => d
          | _ => fallback_description (length (snd item))
          end
          (pulls_url (fst item) username) (length (snd item)).

(** [a] is [b] with some characters left out. *)
Inductive subseq : str -> str -> Prop :=
| subseq_nil : subseq [] []
| subseq_skip x a b : subseq a b -> subseq a (x :: b)
| subseq_keep x a b : subseq a b -> subseq (x :: a) (x :: b).

Definition is_file_effect (e : effect) : bool :=
  match e with
  | OpenRead _ | OpenWrite _ | Write _ _ | WriteFailed _ _ => true
  | _ => false
  end.

Definition is_request (e : effect) : bool :=
  match e with
  | SearchIssues _ | ChatCompletion _ => true
  | _ => false
  end.

Definition is_chat (e : effect) : bool :=
  match e with
  | ChatCompletion _ => true
  | _ => false
  end.

(* ================================================================== *)
(** ** Documents and inputs used as examples *)

(** A line of text with its line break. *)
Definition line (s : string) : str := lit s ++ [NL].
Arguments line s%_string.

(** A disk that holds the projects page and nothing else. *)
Definition projects_page (doc : str) : files :=
  mkFiles (fun p => if str_eqb p default_path then Some doc else None)
          (fun _ => WriteOk).

Definition run (categorized_entries : Categorized) (doc : str)
    : files * list effect :=
  update_projects_file categorized_entries default_path (projects_page doc).

Definition org_repo : Entry :=
  mkEntry (lit "org/repo") (lit "Reworked the parser.")
          (lit "https://github.com/org/repo/pulls") 2.

Definition bioblend : Entry :=
  mkEntry (lit "galaxyproject/bioblend") (lit "Fixed the client.")
          (lit "https://github.com/galaxyproject/bioblend/pulls") 3.

Definition pulsar : Entry :=
  mkEntry (lit "galaxyproject/pulsar") (lit "Added a runner.")
          (lit "https://github.com/galaxyproject/pulsar/pulls") 1.

(** The entry is listed under [Tools]; the category [Libraries] is new. *)
Definition page_listed : str :=
  line "## Notable Open-Source Contributions" ++ line ""
    ++ line "### Tools"
    ++ line "- **[org/repo](https://github.com/org/repo)** - A parser. ([PRs](https://github.com/org/repo/pulls))".

(** A category section that the next heading follows without a blank
    line. *)
Definition page_tight : str :=
  line "## Notable Open-Source Contributions" ++ line ""
    ++ line "### Tools"
    ++ line "- **[org/repo](https://github.com/org/repo)** - A parser. ([PRs](https://github.com/org/repo/pulls))"
    ++ line "## Talks".

(** The anchor heading alone, with no line break after it. *)
Definition page_anchor_only : str := notable_section.

(** Bold text before and after a mention of the short name. *)
Definition page_talks : str :=
  line "## Notable Open-Source Contributions" ++ line ""
    ++ line "### Tools"
    ++ line "- **Planemo** command line"
    ++ line ""
    ++ line "## Talks"
    ++ line "Gave a talk about bioblend at **GCC**".

(** A category heading in a document that has no anchor heading. *)
Definition page_no_anchor : str :=
  line "# Projects" ++ line "" ++ line "### Tools".

(** The old section without its closing line. *)
Definition page_open_ended : str :=
  line "# Projects" ++ line "" ++ RECENT_SECTION ++ [NL] ++ line "- something".

(** A link to a repository whose name extends the name of the entry. *)
Definition page_longer_name : str :=
  line "## Notable Open-Source Contributions" ++ line ""
    ++ line "### Tools"
    ++ line "- **[org/repo-extra](https://github.com/org/repo-extra)** - Extras. ([PRs](https://github.com/org/repo-extra/pulls))".

Definition planemo : Entry :=
  mkEntry (lit "galaxyproject/planemo") (lit "Fixed the linter.")
          (lit "https://github.com/galaxyproject/planemo/pulls") 2.

(** An entry that [page_talks] mentions in bold on one line, and a new
    one. *)
Definition tool_entries : Categorized := [(lit "Tools", [planemo; pulsar])].

(** The two entries merged under [Tools] in [page_talks]. *)
Definition talk_entries : Categorized := [(lit "Tools", [bioblend; pulsar])].

(** A process started with an empty environment. *)
Definition bare_world : world :=
  mkWorld (fun _ => None)
          (mkServices (fun _ => None) (fun _ _ => None))
          (projects_page page_listed).

(* ================================================================== *)
(** ** The model on small inputs *)

Example find_missing : find (lit "abc") (lit "x") = -1.
Proof. reflexivity. Qed.

Example find_from_offset : find_from (lit "a-b-c") (lit "-") 2 = 3.
Proof. reflexivity. Qed.

Example find_past_the_end : find_from (lit "abc") [] 4 = -1.
Proof. reflexivity. Qed.

Example slice_from_negative : slice_from (lit "abc") (-1) = lit "c".
Proof. reflexivity. Qed.

Example slice_empty_when_reversed : slice (lit "abcdef") 4 2 = [].
Proof. reflexivity. Qed.

Example rstrip_blank_lines : rstrip (lit "abc  " ++ [NL; NL]) = lit "abc".
Proof. reflexivity. Qed.

Example short_name_of_repo :
  repo_short_name (lit "galaxyproject/Galaxy") = lit "galaxy".
Proof. reflexivity. Qed.

Example replace_api_prefix :
  replace (lit "https://api.github.com/repos/org/repo")
          (lit "https://api.github.com/repos/") []
  = lit "org/repo".
Proof. reflexivity. Qed.

Example pattern_on_bold_name :
  Re.search (short_name_pattern (lit "planemo")) (lit "see **[Planemo]** here")
  = true.
Proof. reflexivity. Qed.

(** A bullet line in the format of the script is not a match: [(] follows
    the closing bracket. *)
Example pattern_on_bullet_line :
  Re.search (short_name_pattern (lit "planemo"))
            (lit "- **[org/planemo](https://github.com/org/planemo)** - text")
  = false.
Proof. reflexivity. Qed.

Example categorize_infrastructure :
  categorize_repo (lit "usegalaxy-eu/infrastructure-playbook")
  = lit "UseGalaxy.eu Infrastructure".
Proof. reflexivity. Qed.

Example fallback_for_one :
  fallback_description 1
  = lit "Contributed 1 pull request to improve functionality and fix issues.".
Proof. reflexivity. Qed.

Example sorted_longest_first :
  map fst (sorted_by_count [(1, [tt]); (2, [tt; tt]); (3, [tt]); (4, [tt; tt])])
  = [2; 4; 1; 3].
Proof. reflexivity. Qed.

Example rstrip_no_break_space :
  rstrip (lit "abc" ++ map chr [194; 160; 32; 226; 128; 131]%nat) = lit "abc".
Proof. reflexivity. Qed.

Example reading_crlf :
  universal_newlines (lit "a" ++ [CR; NL] ++ lit "b" ++ [CR] ++ lit "c" ++ [NL])
  = line "a" ++ line "b" ++ line "c".
Proof. reflexivity. Qed.

(** The Kelvin sign U+212A matches the letter [k] when case is ignored. *)
Example pattern_on_kelvin_sign :
  Re.search (short_name_pattern (lit "kit"))
            (lit "**" ++ map chr [226; 132; 170]%nat ++ lit "IT**")
  = true.
Proof. reflexivity. Qed.

(** A complete old section is cut out, with the white space before it. *)
Example prune_complete_section :
  prune (line "# Projects" ++ line "" ++ RECENT_SECTION ++ [NL]
           ++ line "- something" ++ LAST_UPDATED ++ line " today*"
           ++ line "The end.")
  = lit "# Projects" ++ [NL] ++ line "The end.".
Proof. reflexivity. Qed.

(** Pull requests as the search returns them, for the examples. *)
Definition pr_to (repo_name : string) (n : nat) : PR :=
  mkPR (lit "https://github.com/" ++ lit repo_name ++ lit "/pull/" ++ of_nat n)
       (lit "Change " ++ of_nat n) None
       (lit "https://api.github.com/repos/" ++ lit repo_name) [] None.
Arguments pr_to repo_name%_string n%_nat.

(** A service that answers no request. *)
Definition silent : services := mkServices (fun _ => None) (fun _ _ => None).

(** Three repositories with their pull requests, as the grouping gives
    them. *)
Definition three_repos : list (str * list PR) :=
  [(lit "org/repo", [pr_to "org/repo" 1]);
   (lit "galaxyproject/planemo",
    [pr_to "galaxyproject/planemo" 2; pr_to "galaxyproject/planemo" 3]);
   (lit "usegalaxy-eu/vgcn", [pr_to "usegalaxy-eu/vgcn" 4])].

(** A service whose model pads its answer with white space. *)
Definition padding : services :=
  mkServices (fun _ => None)
             (fun _ _ => Some (lit "  Improved the docs. " ++ [NL])).

(** The user name and the token that [main] reads (lines 292-293). *)
Definition username_of (w : world) : str :=
  match environ w (lit "GITHUB_USERNAME") with
  | Some u => u
  | None => lit "arash77"
  end.

Definition has_token (w : world) : bool :=
  match environ w (lit "GITHUB_TOKEN") with
  | Some (_ :: _) => true
  | _ => false
  end.

(** A process with a token whose search returns two pull requests to
    repositories of the user. *)
Definition own_work_world : world :=
  mkWorld (fun k => if str_eqb k (lit "GITHUB_TOKEN") then Some (lit "t0ken")
                    else None)
          (mkServices (fun _ => Some [pr_to "arash77/site" 1;
                                      pr_to "arash77/tools" 2])
                      (fun _ _ => None))
          (projects_page page_listed).

(** A process with a token whose search returns pull requests to two
    repositories of others and to one of the user; the model answers every
    request. *)
Definition busy_world : world :=
  mkWorld (fun k => if str_eqb k (lit "GITHUB_TOKEN") then Some (lit "t0ken")
                    else None)
          (mkServices (fun _ => Some [pr_to "org/repo" 1;
                                      pr_to "arash77/site" 2;
                                      pr_to "galaxyproject/planemo" 3;
                                      pr_to "galaxyproject/planemo" 4])
                      (fun _ _ => Some (lit "Fixed the linter.")))
          (projects_page page_listed).

(* ================================================================== *)
(** ** Facts about searching and slicing *)

Section Searching.

Lemma startswith_iff (p s : str) :
  startswith p s = true <-> exists r, s = p ++ r.
Proof.
  revert s; induction p as [|a p IH]; intros s; simpl.
  - split; [intros _; now exists s | reflexivity].
  - destruct s as [|b s].
    + split; [discriminate | intros [r Hr]; discriminate].
    + rewrite andb_true_iff, Ascii.eqb_eq, IH. split.
      * intros [-> [r ->]]. now exists r.
      * intros [r Hr]. injection Hr as -> ->. split; [reflexivity | now exists r].
Qed.

Lemma index_Some (sub s : str) (k : nat) :
  index sub s = Some k ->
  (k <= length s)%nat /\ exists r, skipn k s = sub ++ r.
Proof.
  revert k; induction s as [|c s IH]; intros k; simpl.
  - destruct (startswith sub []) eqn:E; [|discriminate].
    intros [= <-]. split; [lia|]. now apply startswith_iff.
  - destruct (startswith sub (c :: s)) eqn:E.
    + intros [= <-]. split; [lia|]. now apply startswith_iff.
    + destruct (index sub s) as [j|]; [|discriminate].
      intros [= <-]. destruct (IH j eq_refl) as [Hj Hr].
      split; [lia | exact Hr].
Qed.

Lemma index_None (sub s : str) :
  index sub s = None -> forall l r, s <> l ++ sub ++ r.
Proof.
  induction s as [|c s IH]; simpl.
  - destruct (startswith sub []) eqn:E; [discriminate|].
    intros _ l r H. destruct l; simpl in H.
    + assert (startswith sub [] = true) by (apply startswith_iff; now exists r).
      congruence.
    + discriminate.
  - destruct (startswith sub (c :: s)) eqn:E; [discriminate|].
    destruct (index sub s) eqn:Ei; [discriminate|].
    intros _ l r H. destruct l as [|x l]; simpl in H.
    + assert (startswith sub (c :: s) = true)
        by (apply startswith_iff; now exists r).
      congruence.
    + injection H as _ H. exact (IH eq_refl l r H).
Qed.

Lemma contains_occurs (sub s : str) : contains sub s = true <-> occurs sub s.
Proof.
  unfold contains, occurs. destruct (index sub s) as [k|] eqn:E.
  - split; [intros _ | reflexivity].
    destruct (index_Some _ _ _ E) as [_ [r Hr]].
    exists (firstn k s), r. now rewrite <- Hr, firstn_skipn.
  - split; [discriminate|]. intros [l [r H]].
    exfalso. exact (index_None _ _ E l r H).
Qed.

Lemma contains_false (sub s : str) :
  contains sub s = false <-> ~ occurs sub s.
Proof.
  rewrite <- contains_occurs. destruct (contains sub s); intuition congruence.
Qed.

Lemma occurs_refl (s : str) : occurs s s.
Proof. exists [], []. now rewrite app_nil_r. Qed.

Lemma occurs_trans (a b c : str) : occurs a b -> occurs b c -> occurs a c.
Proof.
  intros [l [r ->]] [l' [r' ->]]. exists (l' ++ l), (r ++ r').
  now rewrite <- !app_assoc.
Qed.

Lemma occurs_app_l (a b : str) : occurs a (a ++ b).
Proof. now exists [], b. Qed.

Lemma occurs_app_r (a b : str) : occurs b (a ++ b).
Proof. exists a, []. now rewrite app_nil_r. Qed.

Lemma occurs_in_app_l (sub a b : str) : occurs sub a -> occurs sub (a ++ b).
Proof. intros H. exact (occurs_trans _ _ _ H (occurs_app_l a b)). Qed.

Lemma occurs_in_app_r (sub a b : str) : occurs sub b -> occurs sub (a ++ b).
Proof. intros H. exact (occurs_trans _ _ _ H (occurs_app_r a b)). Qed.

(** A text that spans the point where two texts are joined contains the
    character before the joint and the character after it. *)
Lemma occurs_app_split (sub l r : str) :
  occurs sub (l ++ r) ->
  occurs sub l \/ occurs sub r \/
  exists l' r' x y, l = l' ++ [x] /\ r = y :: r' /\ In x sub /\ In y sub.
Proof.
  intros [a [b H]].
  apply app_eq_app in H. destruct H as [m [[Hl Hr] | [Ha Hr]]].
  - apply app_eq_app in Hr.
    destruct Hr as [n [[Hs Hb] | [Hm Hb]]].
    + (* sub = m ++ n, with l = a ++ m and r = n ++ b *)
      destruct m as [|m0 m] using rev_ind.
      { right; left. simpl in Hs. subst. apply occurs_app_l. }
      destruct n as [|y n].
      { left. rewrite app_nil_r in Hs. subst. apply occurs_app_r. }
      right; right. exists (a ++ m), (n ++ b), m0, y. subst.
      rewrite <- !app_assoc. repeat split.
      * rewrite !in_app_iff. right. left. now left.
      * rewrite !in_app_iff. right. right. now left.
    + left. subst. exists a, n. reflexivity.
  - right; left. subst. exists m, b. reflexivity.
Qed.

(** Inserting at a line boundary keeps every one-line text of the
    document. *)
Lemma occurs_insert (sub l r new : str) :
  one_line sub ->
  l = [] \/ r = [] \/ (exists l', l = l' ++ [NL]) \/ (exists r', r = NL :: r') ->
  occurs sub (l ++ r) -> occurs sub (l ++ new ++ r).
Proof.
  intros Hsub Hb H.
  destruct (occurs_app_split _ _ _ H)
    as [Hl | [Hr | [l' [r' [x [y [El [Er [Hx Hy]]]]]]]]].
  - now apply occurs_in_app_l.
  - now apply occurs_in_app_r, occurs_in_app_r.
  - exfalso. destruct Hb as [-> | [-> | [[l'' E] | [r'' E]]]].
    + destruct l'; discriminate.
    + discriminate.
    + rewrite El in E. apply app_inj_tail in E. destruct E as [_ ->].
      exact (Hsub Hx).
    + rewrite Er in E. injection E as -> _. exact (Hsub Hy).
Qed.

Lemma occurs_one_line (sub s : str) : occurs sub s -> one_line s -> one_line sub.
Proof.
  intros [l [r ->]] H Hin. apply H. rewrite !in_app_iff. auto.
Qed.

End Searching.

Section Slicing.

Lemma clamp_le (s : str) (z : Z) : (clamp s z <= length s)%nat.
Proof. unfold clamp, len. destruct (z <? 0) eqn:E; lia. Qed.

Lemma clamp_inside (s : str) (z : Z) :
  0 <= z <= len s -> clamp s z = Z.to_nat z.
Proof. unfold clamp, len. intros H. destruct (z <? 0) eqn:E; lia. Qed.

(** A successful [find] returns an offset at which the text occurs. *)
Lemma find_from_found (s sub : str) (start q : Z) :
  find_from s sub start = q -> q <> -1 ->
  0 <= q <= len s /\ exists r, skipn (Z.to_nat q) s = sub ++ r.
Proof.
  unfold find_from. destruct (len s <? start); [congruence|].
  destruct (index sub (skipn (clamp s start) s)) as [k|] eqn:E; [|congruence].
  intros <- _. destruct (index_Some _ _ _ E) as [Hk [r Hr]].
  rewrite length_skipn in Hk. pose proof (clamp_le s start) as Hc.
  rewrite skipn_skipn in Hr. unfold len. split; [lia|].
  exists r. rewrite Nat2Z.id, Nat.add_comm. exact Hr.
Qed.

Lemma find_from_after (s sub : str) (start q : Z) :
  0 <= start -> find_from s sub start = q -> q <> -1 -> start <= q.
Proof.
  unfold find_from. intros H0. destruct (Z.ltb_spec (len s) start) as [L|L];
    [congruence|].
  destruct (index sub (skipn (clamp s start) s)) as [k|]; [|congruence].
  intros <- _. rewrite clamp_inside by lia. lia.
Qed.

Lemma find_contains (s sub : str) :
  contains sub s = true -> 0 <= find s sub <= len s.
Proof.
  unfold contains, find, find_from. intros H.
  destruct (Z.ltb_spec (len s) 0) as [E|E]; [unfold len in E; lia|].
  replace (clamp s 0) with O by (unfold clamp; simpl; unfold len; lia).
  simpl skipn. destruct (index sub s) as [k|] eqn:Ei; [|discriminate].
  destruct (index_Some _ _ _ Ei) as [Hk _]. unfold len. lia.
Qed.

Lemma find_from_range (s sub : str) (start : Z) :
  -1 <= find_from s sub start <= len s.
Proof.
  destruct (Z.eq_dec (find_from s sub start) (-1)) as [E|E].
  - rewrite E. unfold len. lia.
  - destruct (find_from_found s sub start _ eq_refl E) as [H _]. lia.
Qed.

Lemma splice_at (content new : str) (z : Z) :
  splice content z new
  = firstn (clamp content z) content ++ new ++ skipn (clamp content z) content.
Proof. reflexivity. Qed.

Lemma insert_at_keeps (s new : str) (p : nat) :
  p = O \/ (length s <= p)%nat \/ (exists r, skipn p s = NL :: r) \/
    (exists q r, p = S q /\ skipn q s = NL :: r) ->
  forall sub, one_line sub -> occurs sub s ->
              occurs sub (firstn p s ++ new ++ skipn p s).
Proof.
  intros Hb sub Hsub Hocc. apply occurs_insert; [exact Hsub | |].
  - destruct Hb as [-> | [Hlen | [[r Hr] | [q [r [-> Hr]]]]]].
    + now left.
    + right; left. now apply skipn_all2.
    + right; right; right. now exists r.
    + right; right; left. exists (firstn q s).
      rewrite <- (firstn_skipn q s) at 1. rewrite Hr.
      assert (Hq : length (firstn q s) = q).
      { rewrite length_firstn. apply Nat.min_l.
        destruct (Nat.le_gt_cases q (length s)) as [Hle|Hgt]; [exact Hle|].
        rewrite skipn_all2 in Hr by lia. discriminate. }
      replace (S q) with (length (firstn q s) + 1)%nat by lia.
      rewrite firstn_app_2. reflexivity.
  - now rewrite firstn_skipn.
Qed.

Lemma skipn_cons_lt {A : Type} (l : list A) (n : nat) (x : A) (r : list A) :
  skipn n l = x :: r -> (n < length l)%nat.
Proof.
  intros H. destruct (Nat.le_gt_cases (length l) n) as [Hle|Hgt]; [|exact Hgt].
  rewrite skipn_all2 in H by exact Hle. discriminate.
Qed.

Lemma splice_keeps_lines (content new : str) (z : Z) :
  line_boundary content z -> keeps_lines content (splice content z new).
Proof.
  intros Hb sub Hsub Hc. apply contains_occurs. apply contains_occurs in Hc.
  rewrite splice_at. apply insert_at_keeps; [|exact Hsub|exact Hc].
  destruct Hb as [-> | [-> | [[Hz [r Hr]] | [Hz [r Hr]]]]].
  - left. unfold clamp. simpl. unfold len. lia.
  - right; left. rewrite clamp_inside by (unfold len; lia).
    unfold len. lia.
  - right; right; left. exists r. pose proof (skipn_cons_lt _ _ _ _ Hr).
    rewrite clamp_inside by (unfold len; lia). exact Hr.
  - right; right; right. exists (Z.to_nat (z - 1)), r.
    pose proof (skipn_cons_lt _ _ _ _ Hr).
    rewrite clamp_inside by (unfold len; lia). split; [lia | exact Hr].
Qed.

Lemma splice_contains_new (content new sub : str) (z : Z) :
  occurs sub new -> contains sub (splice content z new) = true.
Proof.
  intros H. apply contains_occurs. rewrite splice_at.
  now apply occurs_in_app_r, occurs_in_app_l.
Qed.

Lemma keeps_lines_refl (a : str) : keeps_lines a a.
Proof. intros s _ H. exact H. Qed.

Lemma keeps_lines_trans (a b c : str) :
  keeps_lines a b -> keeps_lines b c -> keeps_lines a c.
Proof. intros H1 H2 s Hs H. apply H2, H1; assumption. Qed.

End Slicing.

(* ================================================================== *)
(** ** The steps of the merge loop *)

Section Steps.

Lemma continues_refl (b : buffer) : continues b b.
Proof. exists []. rewrite app_nil_r, orb_false_r. auto. Qed.

Lemma continues_trans (a b c : buffer) :
  continues a b -> continues b c -> continues a c.
Proof.
  intros [x [Hp [Hm Hc]]] [y [Hp' [Hm' Hc']]]. exists (x ++ y).
  rewrite Hp', Hp, Hm', Hm, existsb_app, app_assoc, orb_assoc.
  repeat split. intros H. apply orb_false_iff in H. destruct H as [Hx Hy].
  rewrite Hc', Hc; auto.
Qed.

Lemma continues_one (b : buffer) (text : str) (m : message) :
  is_added m = true ->
  continues b (mkBuffer text true (printed b ++ [m])).
Proof.
  intros H. exists [m]. simpl. rewrite H, orb_true_r. repeat split.
  discriminate.
Qed.

Lemma continues_skip (b : buffer) (m : message) :
  is_added m = false ->
  continues b (mkBuffer (content b) (modified b) (printed b ++ [m])).
Proof.
  intros H. exists [m]. simpl. rewrite H, orb_false_r. auto.
Qed.

(** The three ways an iteration over an entry can end. *)
Lemma add_entry_cases (category : str) (b : buffer) (e : Entry) :
  let short := repo_short_name (repo e) in
  (contains (github_link (repo e)) (content b) = true /\
   add_entry category b e
   = mkBuffer (content b) (modified b)
              (printed b ++ [Skipping (repo e) ExactLink]))
  \/
  (contains (github_link (repo e)) (content b) = false /\
   is_common_name short = false /\
   Re.search (short_name_pattern short) (content b) = true /\
   add_entry category b e
   = mkBuffer (content b) (modified b)
              (printed b ++ [Skipping (repo e) ShortName]))
  \/
  (contains (github_link (repo e)) (content b) = false /\
   (is_common_name short = true \/
    Re.search (short_name_pattern short) (content b) = false) /\
   exists z,
     (contains (section_pattern category) (content b) = true ->
      line_boundary (content b) z) /\
     add_entry category b e
     = mkBuffer (splice (content b) z (format_entry e)) true
                (printed b ++ [AddedEntry (repo e) category])).
Proof.
  intros short. unfold add_entry. fold short.
  set (ss := find (content b) (section_pattern category)).
  set (next := find_from (content b) (NL :: lit "##") (ss + 1)).
  assert (Hz : contains (section_pattern category) (content b) = true ->
               line_boundary (content b)
                 (if negb (next =? -1) then next
                  else ss + len (if next =? -1 then slice_from (content b) ss
                                 else slice (content b) ss next))).
  { intros Hc. pose proof (find_contains _ _ Hc) as Hss. fold ss in Hss.
    destruct (Z.eqb_spec next (-1)) as [E|E]; simpl.
    - right; left. unfold slice_from, len.
      rewrite length_skipn, clamp_inside by exact Hss. unfold len in Hss. lia.
    - destruct (find_from_found _ _ _ _ eq_refl E) as [Hr [r Hs]].
      fold next in Hr, Hs. right; right; left. split; [lia|].
      simpl in Hs. eauto. }
  destruct (contains (github_link (repo e)) (content b)) eqn:Elink.
  - left. auto.
  - right. destruct (is_common_name short) eqn:Ecommon; simpl.
    + right. repeat split; auto. eexists. split; [exact Hz | reflexivity].
    + destruct (Re.search (short_name_pattern short) (content b)) eqn:Ere.
      * left. auto.
      * right. repeat split; auto. eexists. split; [exact Hz | reflexivity].
Qed.

(** An iteration leaves the text as it is or puts the bullet line of the
    entry between two parts of it; no character of the text is removed or
    reordered. *)
Lemma add_entry_text (category : str) (b : buffer) (e : Entry) :
  exists l r,
    content b = l ++ r /\
    (content (add_entry category b e) = l ++ r \/
     content (add_entry category b e) = l ++ format_entry e ++ r).
Proof.
  destruct (add_entry_cases category b e)
    as [[_ ->] | [[_ [_ [_ ->]]] | [_ [_ [z [_ ->]]]]]]; simpl.
  - exists (content b), []. rewrite app_nil_r. auto.
  - exists (content b), []. rewrite app_nil_r. auto.
  - exists (slice_to (content b) z), (slice_from (content b) z). split.
    + unfold slice_to, slice_from. now rewrite firstn_skipn.
    + right. reflexivity.
Qed.

Lemma add_entry_continues (category : str) (b : buffer) (e : Entry) :
  continues b (add_entry category b e).
Proof.
  destruct (add_entry_cases category b e)
    as [[_ ->] | [[_ [_ [_ ->]]] | [_ [_ [z [_ ->]]]]]].
  - now apply continues_skip.
  - now apply continues_skip.
  - now apply continues_one.
Qed.

Lemma add_entries_continues (category : str) (entries : list Entry) :
  forall b, continues b (fold_left (add_entry category) entries b).
Proof.
  induction entries as [|e es IH]; intros b; simpl.
  - apply continues_refl.
  - eapply continues_trans; [apply add_entry_continues | apply IH].
Qed.

Lemma create_category_continues (category : str) (entries : list Entry)
    (b : buffer) :
  continues b (create_category category entries b).
Proof.
  unfold create_category. destruct (contains notable_section (content b)).
  - now apply continues_one.
  - apply continues_refl.
Qed.

Lemma merge_category_continues (b : buffer) (item : str * list Entry) :
  continues b (merge_category b item).
Proof.
  destruct item as [category entries]. unfold merge_category.
  destruct (negb (contains (section_pattern category) (content b))).
  - apply create_category_continues.
  - apply add_entries_continues.
Qed.

Lemma merge_loop_continues (categorized_entries : Categorized) :
  forall b, continues b (fold_left merge_category categorized_entries b).
Proof.
  induction categorized_entries as [|item rest IH]; intros b; simpl.
  - apply continues_refl.
  - eapply continues_trans; [apply merge_category_continues | apply IH].
Qed.

(** The flag is raised exactly when an addition was reported, and a run
    that reports none leaves the text as it was. *)
Lemma merge_flag (categorized_entries : Categorized) (text : str) :
  let b := merge categorized_entries text in
  modified b = existsb is_added (printed b) /\
  (modified b = false -> content b = text).
Proof.
  destruct (merge_loop_continues categorized_entries (mkBuffer text false []))
    as [extra [Hp [Hm Hc]]].
  fold (merge categorized_entries text) in Hp, Hm, Hc. simpl in *.
  rewrite Hp, Hm. split; [reflexivity | exact Hc].
Qed.

End Steps.

(* ================================================================== *)
(** ** What a run leaves in the document *)

Section Covering.

Lemma one_line_notable : one_line notable_section.
Proof.
  unfold one_line. intros H. vm_compute in H.
  repeat (destruct H as [H|H]; [discriminate H|]). exact H.
Qed.

Lemma one_line_app (a b : str) : one_line a -> one_line b -> one_line (a ++ b).
Proof. unfold one_line. intros Ha Hb H. apply in_app_iff in H. tauto. Qed.

Lemma one_line_section_pattern (category : str) :
  one_line category -> one_line (section_pattern category).
Proof.
  intros H. apply one_line_app; [|exact H].
  intros Hin. vm_compute in Hin.
  repeat (destruct Hin as [Hin|Hin]; [discriminate Hin|]). exact Hin.
Qed.

Lemma one_line_github_link (repo_name : str) :
  one_line repo_name -> one_line (github_link repo_name).
Proof.
  intros H. apply one_line_app; [|exact H].
  intros Hin. vm_compute in Hin.
  repeat (destruct Hin as [Hin|Hin]; [discriminate Hin|]). exact Hin.
Qed.

(** The bullet line of an entry carries the link of the entry. *)
Lemma format_entry_link (e : Entry) :
  occurs (github_link (repo e)) (format_entry e).
Proof.
  exists (lit "- **[" ++ repo e ++ lit "](https://"),
         (lit ")** - " ++ description e ++ lit " ([PRs](" ++ pr_url e
            ++ lit "))" ++ [NL]).
  unfold format_entry, github_link.
  change (lit "](https://github.com/") with (lit "](https://" ++ lit "github.com/").
  now rewrite <- !app_assoc.
Qed.

Lemma new_section_text (entries : list Entry) :
  forall init,
    fold_left (fun acc entry => acc ++ format_entry entry) entries init
    = init ++ concat (map format_entry entries).
Proof.
  induction entries as [|e es IH]; intros init; cbn [fold_left map concat].
  - now rewrite app_nil_r.
  - now rewrite IH, app_assoc.
Qed.

Lemma occurs_concat (x : str) (xs : list str) : In x xs -> occurs x (concat xs).
Proof.
  intros H. apply in_split in H. destruct H as [l1 [l2 ->]].
  rewrite concat_app. simpl. exists (concat l1), (concat l2). reflexivity.
Qed.

Lemma add_entry_keeps_lines (category : str) (b : buffer) (e : Entry) :
  contains (section_pattern category) (content b) = true ->
  keeps_lines (content b) (content (add_entry category b e)).
Proof.
  intros Hc. destruct (add_entry_cases category b e)
    as [[_ ->] | [[_ [_ [_ ->]]] | [_ [_ [z [Hz ->]]]]]]; simpl.
  - apply keeps_lines_refl.
  - apply keeps_lines_refl.
  - apply splice_keeps_lines. exact (Hz Hc).
Qed.

Lemma create_category_cover (category : str) (entries : list Entry)
    (b : buffer) :
  contains notable_section (content b) = true ->
  keeps_lines (content b) (content (create_category category entries b)) /\
  covered (content (create_category category entries b)) (category, entries).
Proof.
  intros Hn. unfold create_category. rewrite Hn. cbn [content].
  rewrite new_section_text. split; [|split]; cbn [fst snd].
  - apply splice_keeps_lines.
    set (k := find (content b) notable_section + len notable_section).
    destruct (Z.eq_dec (find_from (content b) [NL] k) (-1)) as [E|E].
    + rewrite E. now left.
    + destruct (find_from_found _ _ _ _ eq_refl E) as [Hr [r Hs]].
      right; right; right. split; [lia|]. exists r.
      replace (find_from (content b) [NL] k + 1 - 1)
        with (find_from (content b) [NL] k) by lia.
      exact Hs.
  - apply splice_contains_new, occurs_in_app_l.
    exists [NL], [NL]. unfold section_pattern. now rewrite <- app_assoc.
  - intros e He. apply splice_contains_new, occurs_in_app_r.
    eapply occurs_trans; [apply format_entry_link|].
    apply occurs_concat, in_map, He.
Qed.

End Covering.

(* ================================================================== *)
(** ** Pruning *)

Section Pruning.

Lemma drop_prefix_split (p s t : str) :
  drop_prefix p s = Some t -> s = p ++ t.
Proof.
  unfold drop_prefix. destruct (startswith p s) eqn:E; [|discriminate].
  intros [= <-]. apply startswith_iff in E. destruct E as [r ->].
  f_equal. rewrite skipn_app, skipn_all, Nat.sub_diag. reflexivity.
Qed.

Lemma drop_first_split (vs : list str) (s t : str) :
  drop_first vs s = Some t -> exists v, In v vs /\ s = v ++ t.
Proof.
  induction vs as [|v vs IH]; simpl; [discriminate|].
  destruct (drop_prefix v s) as [t'|] eqn:E.
  - intros [= <-]. exists v. split; [now left | now apply drop_prefix_split].
  - intros H. destruct (IH H) as [v' [Hv E']]. exists v'. auto.
Qed.

Lemma drop_spaces_suffix (spaces : list str) (fuel : nat) :
  forall s, exists h, s = h ++ drop_spaces spaces fuel s.
Proof.
  induction fuel as [|fuel IH]; intros s; simpl; [now exists []|].
  destruct (drop_first spaces s) as [t|] eqn:E; [|now exists []].
  destruct (drop_first_split _ _ _ E) as [v [_ ->]].
  destruct (IH t) as [h Hh]. exists (v ++ h).
  rewrite <- app_assoc. now rewrite <- Hh.
Qed.

Lemma rstrip_prefix (s : str) : exists t, s = rstrip s ++ t.
Proof.
  unfold rstrip.
  destruct (drop_spaces_suffix (map (@rev ascii) SPACES) (length s) (rev s))
    as [h H].
  exists (rev h). rewrite <- rev_app_distr, <- H. now rewrite rev_involutive.
Qed.

Lemma occurs_rstrip_slice_to (sub content : str) (z : Z) :
  occurs sub (rstrip (slice_to content z)) -> occurs sub content.
Proof.
  intros H. destruct (rstrip_prefix (slice_to content z)) as [t Ht].
  apply (occurs_in_app_l _ _ t) in H. rewrite <- Ht in H. unfold slice_to in H.
  rewrite <- (firstn_skipn (clamp content z) content).
  now apply occurs_in_app_l.
Qed.

(** Pruning brings no one-line text into the document. *)
Lemma prune_brings_nothing (content sub : str) :
  one_line sub ->
  contains sub (prune content) = true -> contains sub content = true.
Proof.
  intros Hsub. unfold prune.
  destruct (contains RECENT_SECTION content); [|auto].
  set (start := find content RECENT_SECTION).
  destruct (Z.eqb_spec (find_from content LAST_UPDATED start) (-1)) as [E|E];
    simpl; [auto|].
  set (stop := find_from content [NL] (find_from content LAST_UPDATED start + 20)).
  rewrite !contains_occurs.
  destruct (Z.eqb_spec stop (-1)) as [E'|E']; simpl.
  - apply occurs_rstrip_slice_to.
  - destruct (find_from_found _ _ _ _ eq_refl E') as [Hr [r Hs]].
    fold stop in Hr, Hs. intros H.
    assert (Hsl : slice_from content stop = NL :: r).
    { unfold slice_from. now rewrite clamp_inside by exact Hr. }
    destruct (occurs_app_split _ _ _ H)
      as [Hl | [Hr' | [l' [r' [x [y [_ [Er [_ Hy]]]]]]]]].
    + now apply occurs_rstrip_slice_to in Hl.
    + unfold slice_from in Hr'.
      rewrite <- (firstn_skipn (clamp content stop) content).
      now apply occurs_in_app_r.
    + exfalso. rewrite Hsl in Er. injection Er as Ey _. subst y.
      exact (Hsub Hy).
Qed.

(** A document without the old heading is not touched. *)
Lemma prune_without_heading (content : str) :
  contains RECENT_SECTION content = false -> prune content = content.
Proof. unfold prune. now intros ->. Qed.

(** The text from the old heading to the end of the file is dropped when the
    closing line is found and is the last line, with no line break. *)
Lemma prune_last_line (content : str) :
  contains RECENT_SECTION content = true ->
  find_from content LAST_UPDATED (find content RECENT_SECTION) <> -1 ->
  find_from content [NL]
    (find_from content LAST_UPDATED (find content RECENT_SECTION) + 20) = -1 ->
  prune content = rstrip (slice_to content (find content RECENT_SECTION)).
Proof.
  intros Hc Hf Hn. unfold prune. rewrite Hc, Hn.
  destruct (Z.eqb_spec
              (find_from content LAST_UPDATED (find content RECENT_SECTION))
              (-1)); [contradiction | reflexivity].
Qed.

End Pruning.

(** C3, as amended.  When the heading of the old section is in the document
    and the closing [Last updated] line is not found after it, pruning leaves
    the document as it is: nothing is cut. *)
Theorem prune_without_closing_line (content : str) :
  contains RECENT_SECTION content = true ->
  find_from content LAST_UPDATED (find content RECENT_SECTION) = -1 ->
  prune content = content.
Proof.
  intros Hc Hf. unfold prune. rewrite Hc, Hf. reflexivity.
Qed.

Lemma prune_without_closing_line_witness :
  prune page_open_ended = page_open_ended.
Proof.
  apply (prune_without_closing_line page_open_ended); vm_compute; reflexivity.
Defined.

(** C3, as stated, fails: the heading is in [page_open_ended], no closing
    line follows it, and pruning returns the whole document, which is neither
    the text before the heading nor that text with its trailing white space
    removed. *)
Lemma open_ended_section_is_kept :
  contains RECENT_SECTION page_open_ended = true /\
  find_from page_open_ended LAST_UPDATED
            (find page_open_ended RECENT_SECTION) = -1 /\
  prune page_open_ended = page_open_ended /\
  slice_to page_open_ended (find page_open_ended RECENT_SECTION)
  = line "# Projects" ++ line "" /\
  str_eqb (prune page_open_ended)
          (slice_to page_open_ended (find page_open_ended RECENT_SECTION))
  = false /\
  str_eqb (prune page_open_ended)
          (rstrip (slice_to page_open_ended
                            (find page_open_ended RECENT_SECTION)))
  = false.
Proof. repeat split; vm_compute; reflexivity. Qed.

(* ================================================================== *)
(** ** Runs that write nothing, runs that write once *)

Section Reading.

Lemma contains_cons (sub : str) (c : ascii) (t : str) :
  contains sub (c :: t) = startswith sub (c :: t) || contains sub t.
Proof.
  unfold contains. simpl index. destruct (startswith sub (c :: t)); simpl;
    [reflexivity|]. now destruct (index sub t).
Qed.

Lemma contains_nil (s : str) : contains [] s = true.
Proof. apply contains_occurs. now exists [], s. Qed.

Lemma plain_cons (x : ascii) (s : str) :
  plain (x :: s) -> is_break x = false /\ plain s.
Proof.
  intros H. split; [apply H; now left | intros c Hc; apply H; now right].
Qed.

Lemma not_break (x : ascii) :
  is_break x = false -> Ascii.eqb x NL = false /\ Ascii.eqb x CR = false.
Proof. unfold is_break. intros H. now apply orb_false_iff in H. Qed.

Lemma plainb_true (s : str) : plainb s = true -> plain s.
Proof.
  unfold plainb, plain. rewrite forallb_forall. intros H c Hc.
  now apply negb_true_iff, H.
Qed.

Lemma plain_one_line (s : str) : plain s -> one_line s.
Proof. intros H Hin. specialize (H _ Hin). discriminate H. Qed.

Lemma plain_app (a b : str) : plain a -> plain b -> plain (a ++ b).
Proof. intros Ha Hb c Hc. apply in_app_iff in Hc. destruct Hc; auto. Qed.

Lemma universal_newlines_other (c : ascii) (t : str) :
  Ascii.eqb c CR = false ->
  universal_newlines (c :: t) = c :: universal_newlines t.
Proof. intros H. simpl. now rewrite H. Qed.

Lemma universal_newlines_CR_NL (t : str) :
  universal_newlines (CR :: NL :: t) = NL :: universal_newlines t.
Proof. reflexivity. Qed.

Lemma universal_newlines_CR (d0 : ascii) (t : str) :
  Ascii.eqb d0 NL = false ->
  universal_newlines (CR :: d0 :: t) = NL :: universal_newlines (d0 :: t).
Proof.
  intros H. change (universal_newlines (CR :: d0 :: t))
    with (if Ascii.eqb d0 NL then NL :: universal_newlines t
          else NL :: universal_newlines (d0 :: t)).
  now rewrite H.
Qed.

(** Reading changes no text that has no line break: such a text starts the
    text read exactly when it starts the bytes. *)
Lemma startswith_universal_newlines (sub : str) :
  plain sub ->
  forall d, sub <> [] ->
            startswith sub (universal_newlines d) = startswith sub d.
Proof.
  induction sub as [|x sub IH]; intros Hp d Hne; [congruence|].
  destruct (plain_cons _ _ Hp) as [Hx Hs]. destruct (not_break _ Hx) as [Hn Hc].
  destruct d as [|c t]; [reflexivity|].
  destruct (Ascii.eqb c CR) eqn:Ec.
  - apply Ascii.eqb_eq in Ec. subst c.
    destruct t as [|d0 t'].
    + simpl. now rewrite Hn, Hc.
    + destruct (Ascii.eqb d0 NL) eqn:Ed.
      * apply Ascii.eqb_eq in Ed. subst d0. rewrite universal_newlines_CR_NL.
        simpl. now rewrite Hn, Hc.
      * rewrite (universal_newlines_CR _ _ Ed). simpl. now rewrite Hn, Hc.
  - rewrite (universal_newlines_other _ _ Ec). simpl.
    destruct sub as [|y sub']; [reflexivity|].
    rewrite (IH Hs t); [reflexivity | discriminate].
Qed.

(** The text read has a text without line breaks exactly when the bytes have
    it. *)
Lemma contains_universal_newlines (sub : str) :
  plain sub ->
  forall d, contains sub (universal_newlines d) = contains sub d.
Proof.
  intros Hp. destruct sub as [|x sub'] eqn:Es.
  { intros d. now rewrite !contains_nil. }
  rewrite <- Es in *. assert (Hne : sub <> []) by (subst; discriminate).
  assert (Hnl : forall t, startswith sub (NL :: t) = false).
  { intros t. subst sub. destruct (plain_cons _ _ Hp) as [Hx _].
    destruct (not_break _ Hx) as [Hn _]. simpl. now rewrite Hn. }
  assert (Hcr : forall t, startswith sub (CR :: t) = false).
  { intros t. subst sub. destruct (plain_cons _ _ Hp) as [Hx _].
    destruct (not_break _ Hx) as [_ Hc]. simpl. now rewrite Hc. }
  assert (Hemp : contains sub [] = false) by (subst sub; reflexivity).
  clear Es. intros d. remember (length d) as n eqn:En. revert d En.
  induction n as [n IH] using lt_wf_ind. intros d En.
  destruct d as [|c t]; [reflexivity|]. simpl in En.
  destruct (Ascii.eqb c CR) eqn:Ec.
  - apply Ascii.eqb_eq in Ec. subst c.
    rewrite (contains_cons sub CR t), Hcr. rewrite ?orb_false_l.
    destruct t as [|d0 t'].
    + change (universal_newlines [CR]) with [NL].
      now rewrite contains_cons, Hnl, Hemp.
    + destruct (Ascii.eqb d0 NL) eqn:Ed.
      * apply Ascii.eqb_eq in Ed. subst d0. rewrite universal_newlines_CR_NL.
        rewrite !contains_cons, !Hnl. rewrite ?orb_false_l.
        apply (IH (length t')); [simpl in En; lia | reflexivity].
      * rewrite (universal_newlines_CR _ _ Ed), contains_cons, Hnl. rewrite ?orb_false_l.
        apply (IH (length (d0 :: t'))); [lia | reflexivity].
  - rewrite (contains_cons sub c t).
    rewrite <- (startswith_universal_newlines sub Hp (c :: t) Hne).
    rewrite (universal_newlines_other _ _ Ec), contains_cons.
    f_equal. apply (IH (length t)); [lia | reflexivity].
Qed.

Lemma universal_newlines_no_CR (d : str) : ~ In CR (universal_newlines d).
Proof.
  remember (length d) as n eqn:En. revert d En.
  induction n as [n IH] using lt_wf_ind. intros d En.
  destruct d as [|c t]; [intros []|]. simpl in En.
  destruct (Ascii.eqb c CR) eqn:Ec.
  - apply Ascii.eqb_eq in Ec. subst c. destruct t as [|d0 t'].
    + intros [H | []]. discriminate H.
    + destruct (Ascii.eqb d0 NL) eqn:Ed.
      * apply Ascii.eqb_eq in Ed. subst d0. rewrite universal_newlines_CR_NL.
        intros [H | H]; [discriminate H|].
        apply (IH (length t') ltac:(simpl in En; lia) t' eq_refl H).
      * rewrite (universal_newlines_CR _ _ Ed).
        intros [H | H]; [discriminate H|].
        apply (IH (length (d0 :: t')) ltac:(lia) _ eq_refl H).
  - rewrite (universal_newlines_other _ _ Ec). intros [H | H].
    + subst c. rewrite Ascii.eqb_refl in Ec. discriminate.
    + apply (IH (length t) ltac:(lia) t eq_refl H).
Qed.

(** Reading brings no one-line text into the document. *)
Lemma universal_newlines_brings_nothing (sub d : str) :
  one_line sub ->
  contains sub (universal_newlines d) = true -> contains sub d = true.
Proof.
  intros Hl H. destruct (in_dec ascii_dec CR sub) as [Hin | Hnin].
  - exfalso. apply contains_occurs in H. destruct H as [l [r E]].
    apply (universal_newlines_no_CR d). rewrite E, !in_app_iff. auto.
  - rewrite contains_universal_newlines in H; [exact H|].
    intros c Hc. unfold is_break. apply orb_false_iff. split.
    + apply Ascii.eqb_neq. intros ->. exact (Hl Hc).
    + apply Ascii.eqb_neq. intros ->. exact (Hnin Hc).
Qed.

End Reading.

Section Writing.

Lemma writes_prints (out : list message) (rest : list effect) :
  writes (map Print out ++ rest) = writes rest.
Proof. induction out as [|m out IH]; simpl; auto. Qed.

Lemma reports_addition_prints (out : list message) (rest : list effect) :
  reports_addition (map Print out ++ rest)
  = existsb is_added out || reports_addition rest.
Proof.
  unfold reports_addition. rewrite existsb_app. f_equal.
  induction out as [|m out IH]; simpl; congruence.
Qed.

Lemma writes_trace (path : str) (out : list message) (rest : list effect) :
  writes (OpenRead path :: map Print out ++ rest) = writes rest.
Proof. simpl. apply writes_prints. Qed.

Lemma reports_trace (path : str) (out : list message) (rest : list effect) :
  reports_addition (OpenRead path :: map Print out ++ rest)
  = existsb is_added out || reports_addition rest.
Proof. rewrite <- reports_addition_prints. reflexivity. Qed.

Lemma str_eqb_refl (s : str) : str_eqb s s = true.
Proof. unfold str_eqb. destruct (list_eq_dec ascii_dec s s); congruence. Qed.

Lemma one_lineb_true (s : str) : one_lineb s = true -> one_line s.
Proof.
  unfold one_lineb, one_line. intros H Hin.
  apply negb_true_iff in H.
  assert (existsb (Ascii.eqb NL) s = true); [|congruence].
  apply existsb_exists. exists NL. split; [exact Hin | apply Ascii.eqb_refl].
Qed.

(** Without the anchor heading and without the heading of the category,
    nothing is done for the category. *)
Lemma merge_loop_no_heading (categorized_entries : Categorized) (b : buffer) :
  contains notable_section (content b) = false ->
  (forall item, In item categorized_entries ->
                contains (section_pattern (fst item)) (content b) = false) ->
  fold_left merge_category categorized_entries b = b.
Proof.
  intros Hn. induction categorized_entries as [|[category entries] rest IH];
    intros H; simpl; [reflexivity|].
  pose proof (H _ (or_introl eq_refl)) as Hc. simpl in Hc.
  unfold create_category. rewrite Hc, Hn. simpl.
  apply IH. intros item Hi. apply H. now right.
Qed.

Lemma update_unchanged (categorized_entries : Categorized) (path doc : str)
    (fs : files) (out : list message) :
  text fs path = Some doc ->
  merge categorized_entries (prune (universal_newlines doc))
  = mkBuffer (prune (universal_newlines doc)) false out ->
  update_projects_file categorized_entries path fs
  = (fs, match categorized_entries with
         | [] => [Print NoNewContributions]
         | _ :: _ => OpenRead path :: map Print out ++ [Print NoChangesNeeded]
         end).
Proof.
  intros Ht Hm. unfold update_projects_file.
  destruct categorized_entries; [reflexivity|]. rewrite Ht.
  cbv zeta. rewrite Hm. reflexivity.
Qed.

End Writing.

(** C4, as amended.  When the document has neither the anchor heading nor
    the heading of any category of the input (the category names being single
    lines), the run adds nothing, reports no addition, and does not write:
    the file stays as it was. *)
Theorem no_anchor_no_section_unchanged (categorized_entries : Categorized)
    (path doc : str) (fs : files) :
  text fs path = Some doc ->
  contains notable_section doc = false ->
  forallb (fun item : str * list Entry =>
             one_lineb (fst item)
             && negb (contains (section_pattern (fst item)) doc))
          categorized_entries = true ->
  update_projects_file categorized_entries path fs
  = (fs, match categorized_entries with
         | [] => [Print NoNewContributions]
         | _ :: _ => [OpenRead path; Print NoChangesNeeded]
         end).
Proof.
  intros Ht Hn Hc.
  rewrite (update_unchanged categorized_entries path doc fs [] Ht);
    [reflexivity|].
  apply (merge_loop_no_heading categorized_entries
           (mkBuffer (prune (universal_newlines doc)) false [])).
  - simpl. apply contains_false. intros Ho. apply contains_occurs in Ho.
    apply prune_brings_nothing in Ho; [|apply one_line_notable].
    apply universal_newlines_brings_nothing in Ho;
      [congruence | apply one_line_notable].
  - intros item Hi. rewrite forallb_forall in Hc. specialize (Hc item Hi).
    apply andb_true_iff in Hc. destruct Hc as [Hl Hs].
    apply negb_true_iff in Hs. simpl.
    assert (Hone : one_line (section_pattern (fst item)))
      by now apply one_line_section_pattern, one_lineb_true.
    apply contains_false. intros Ho. apply contains_occurs in Ho.
    apply prune_brings_nothing in Ho; [|exact Hone].
    apply universal_newlines_brings_nothing in Ho; [congruence | exact Hone].
Qed.

Lemma no_anchor_no_section_unchanged_witness :
  run [(lit "Libraries", [org_repo])] page_no_anchor
  = (projects_page page_no_anchor, [OpenRead default_path; Print NoChangesNeeded]).
Proof.
  apply (no_anchor_no_section_unchanged
           [(lit "Libraries", [org_repo])] default_path page_no_anchor
           (projects_page page_no_anchor));
    vm_compute; reflexivity.
Defined.

(** C4, as stated, fails: [page_no_anchor] has no anchor heading, yet the
    entry is appended under the existing [### Tools] heading and the file is
    written. *)
Lemma section_without_anchor_is_extended :
  contains notable_section page_no_anchor = false /\
  writes (snd (run [(lit "Tools", [pulsar])] page_no_anchor))
  = [(default_path,
      line "# Projects" ++ line "" ++ line "### Tools"
        ++ line "- **[galaxyproject/pulsar](https://github.com/galaxyproject/pulsar)** - Added a runner. ([PRs](https://github.com/galaxyproject/pulsar/pulls))")].
Proof. split; vm_compute; reflexivity. Qed.

Section Growing.

Lemma splice_length (text new : str) (z : Z) :
  length (splice text z new) = (length text + length new)%nat.
Proof.
  rewrite splice_at, !length_app, length_firstn, length_skipn.
  pose proof (clamp_le text z). lia.
Qed.

Lemma format_entry_length (e : Entry) : (0 < length (format_entry e))%nat.
Proof. unfold format_entry. rewrite length_app. simpl. lia. Qed.

Lemma grows_refl (b : buffer) : grows b b.
Proof. split; [lia | auto]. Qed.

Lemma grows_trans (a b c : buffer) : grows a b -> grows b c -> grows a c.
Proof.
  intros [H1 H2] [H3 H4]. split; [lia|]. intros Hc.
  destruct (H4 Hc) as [Hb | Hlt]; [|right; lia].
  destruct (H2 Hb) as [Ha | Hlt]; [now left | right; lia].
Qed.

Lemma add_entry_grows (category : str) (b : buffer) (e : Entry) :
  grows b (add_entry category b e).
Proof.
  destruct (add_entry_cases category b e)
    as [[_ ->] | [[_ [_ [_ ->]]] | [_ [_ [z [_ ->]]]]]]; unfold grows; simpl.
  - split; [lia | auto].
  - split; [lia | auto].
  - rewrite splice_length. pose proof (format_entry_length e).
    split; [lia | right; lia].
Qed.

Lemma add_entries_grows (category : str) (entries : list Entry) :
  forall b, grows b (fold_left (add_entry category) entries b).
Proof.
  induction entries as [|e es IH]; intros b; simpl; [apply grows_refl|].
  eapply grows_trans; [apply add_entry_grows | apply IH].
Qed.

Lemma create_category_grows (category : str) (entries : list Entry)
    (b : buffer) :
  grows b (create_category category entries b).
Proof.
  unfold create_category. destruct (contains notable_section (content b));
    [|apply grows_refl].
  unfold grows. cbn [content modified]. rewrite splice_length, new_section_text.
  rewrite length_app. cbn [length]. split; [lia | right; lia].
Qed.

Lemma merge_category_grows (b : buffer) (item : str * list Entry) :
  grows b (merge_category b item).
Proof.
  destruct item as [category entries]. unfold merge_category.
  destruct (negb (contains (section_pattern category) (content b)));
    [apply create_category_grows | apply add_entries_grows].
Qed.

Lemma merge_loop_grows (categorized_entries : Categorized) :
  forall b, grows b (fold_left merge_category categorized_entries b).
Proof.
  induction categorized_entries as [|item rest IH]; intros b; simpl;
    [apply grows_refl|].
  eapply grows_trans; [apply merge_category_grows | apply IH].
Qed.

(** The flag is raised only when the text has grown. *)
Lemma merge_grows (categorized_entries : Categorized) (text : str) :
  modified (merge categorized_entries text) = true ->
  (length text < length (content (merge categorized_entries text)))%nat.
Proof.
  intros H.
  destruct (merge_loop_grows categorized_entries (mkBuffer text false []))
    as [_ Hg].
  destruct (Hg H) as [Hf | Hlt]; [discriminate Hf | exact Hlt].
Qed.

Variable all : Categorized.

Lemma add_entry_shows (category : str) (entries : list Entry) (b : buffer)
    (e : Entry) :
  In (category, entries) all -> In e entries ->
  shows all b -> shows all (add_entry category b e).
Proof.
  intros Hi He Hs.
  destruct (add_entry_cases category b e)
    as [[_ ->] | [[_ [_ [_ ->]]] | [_ [_ [z [_ ->]]]]]]; unfold shows in *;
    cbn [content modified]; auto.
  intros _. exists (category, entries), e. repeat split; auto.
  rewrite splice_at. apply occurs_in_app_r, occurs_app_l.
Qed.

Lemma add_entries_shows (category : str) (entries : list Entry)
    (rest : list Entry) :
  In (category, entries) all -> (forall e, In e rest -> In e entries) ->
  forall b, shows all b -> shows all (fold_left (add_entry category) rest b).
Proof.
  intros Hi. induction rest as [|e rest IH]; intros Hsub b Hs; simpl;
    [exact Hs|].
  apply IH; [intros x Hx; apply Hsub; now right|].
  apply (add_entry_shows category entries); auto. apply Hsub. now left.
Qed.

Lemma create_category_shows (category : str) (entries : list Entry)
    (b : buffer) :
  In (category, entries) all -> entries <> [] ->
  shows all b -> shows all (create_category category entries b).
Proof.
  intros Hi Hne Hs. unfold create_category.
  destruct (contains notable_section (content b)); [|exact Hs].
  destruct entries as [|e es]; [congruence|].
  intros _. exists (category, e :: es), e. cbn [content snd].
  repeat split; [exact Hi | now left |].
  rewrite splice_at, new_section_text. cbn [map concat].
  apply occurs_in_app_r, occurs_in_app_l, occurs_in_app_r, occurs_app_l.
Qed.

Lemma merge_loop_shows (rest : Categorized) :
  (forall item, In item rest -> In item all /\ snd item <> []) ->
  forall b, shows all b -> shows all (fold_left merge_category rest b).
Proof.
  induction rest as [|[category entries] rest IH]; intros Hsub b Hs; simpl;
    [exact Hs|].
  apply IH; [intros x Hx; apply Hsub; now right|].
  destruct (Hsub _ (or_introl eq_refl)) as [Hi Hne]. simpl in Hne.
  destruct (negb (contains (section_pattern category) (content b))).
  - now apply create_category_shows.
  - apply (add_entries_shows category entries); auto.
Qed.

End Growing.

Lemma prints_no_write (out : list message) :
  existsb is_write_effect (map Print out) = false.
Proof. induction out; simpl; auto. Qed.

(** When every category has an entry and the flag is raised, the bullet
    line of an entry of the input is in the text. *)
Lemma merge_shows (categorized_entries : Categorized) (text : str) :
  (forall item, In item categorized_entries -> snd item <> []) ->
  shows categorized_entries (merge categorized_entries text).
Proof.
  intros Hne. apply (merge_loop_shows categorized_entries categorized_entries).
  - intros item Hi. split; [exact Hi | now apply Hne].
  - intros H. discriminate H.
Qed.

(** C5, as amended.  A run writes the file at most once, and only when the
    merge put text into the document: a category section was created or an
    entry appended, which is what the [modified] flag records.  What is
    written is the final text of the buffer, and it is longer than the
    document was after reading and pruning.  When every category of the
    input has an entry, the bullet line of an entry of the input is in the
    written text.  A run that makes no addition, as when every entry is
    skipped as a duplicate, does not open the file for writing and leaves
    the disk as it was; a run that makes one writes exactly once when the
    write succeeds. *)
Theorem written_once_when_text_inserted (categorized_entries : Categorized)
    (path : str) (fs : files) :
  let r := update_projects_file categorized_entries path fs in
  (length (writes (snd r)) <= 1)%nat /\
  (forall p data, In (p, data) (writes (snd r)) ->
     p = path /\
     reports_addition (snd r) = true /\
     text (fst r) path = Some data /\
     exists bytes,
       text fs path = Some bytes /\
       data = content (merge categorized_entries
                             (prune (universal_newlines bytes))) /\
       modified (merge categorized_entries
                       (prune (universal_newlines bytes))) = true /\
       (length (prune (universal_newlines bytes)) < length data)%nat /\
       ((forall item, In item categorized_entries -> snd item <> []) ->
        exists item e, In item categorized_entries /\ In e (snd item) /\
                       occurs (format_entry e) data)) /\
  (reports_addition (snd r) = false ->
   existsb is_write_effect (snd r) = false /\ fst r = fs) /\
  (reports_addition (snd r) = true -> on_write fs path = WriteOk ->
   length (writes (snd r)) = 1%nat).
Proof.
  unfold update_projects_file.
  destruct categorized_entries as [|item rest].
  { simpl. repeat split; auto; try lia; try contradiction; discriminate. }
  set (cats := item :: rest). destruct (text fs path) as [bytes|] eqn:Et.
  2: { simpl. repeat split; auto; try lia; try contradiction; discriminate. }
  cbv zeta. set (before := prune (universal_newlines bytes)).
  destruct (merge_flag cats before) as [Hm _].
  pose proof (merge_grows cats before) as Hg.
  pose proof (merge_shows cats before) as Hs.
  destruct (modified (merge cats before)) eqn:Em.
  - destruct (on_write fs path) eqn:Ew; cbn [fst snd];
      rewrite writes_trace, reports_trace, <- Hm; cbn [writes orb length].
    + split; [lia|]. split; [|split; [discriminate | reflexivity]].
      intros p data [[= <- <-] | []]. repeat split.
      * simpl. now rewrite str_eqb_refl.
      * exists bytes. split; [reflexivity|]. split; [reflexivity|].
        split; [exact Em|]. split; [now apply Hg|].
        intros Hne. exact (Hs Hne Em).
    + split; [lia|]. split; [intros p data []|].
      split; [discriminate | intros _ H; discriminate H].
    + split; [lia|]. split; [intros p data []|].
      split; [discriminate | intros _ H; discriminate H].
  - cbn [fst snd]. rewrite writes_trace, reports_trace, <- Hm.
    cbn [writes orb length reports_addition existsb is_added].
    split; [lia|]. split; [intros p data []|]. split; [|discriminate].
    intros _. split; [|reflexivity].
    cbn [existsb is_write_effect orb]. rewrite existsb_app.
    cbn [existsb is_write_effect orb]. rewrite orb_false_r.
    apply prints_no_write.
Qed.

(** C5, as stated, fails: merging the category [Libraries] with no entry
    creates the bare heading, raises the flag and writes the file, though no
    entry was created or appended. *)
Lemma empty_category_is_written :
  snd (run [(lit "Libraries", [])] page_listed)
  = [OpenRead default_path; Print (AddedCategory (lit "Libraries"));
     OpenWrite default_path;
     Write default_path
       (line "## Notable Open-Source Contributions" ++ line ""
          ++ line "### Libraries"
          ++ line ""
          ++ line "### Tools"
          ++ line "- **[org/repo](https://github.com/org/repo)** - A parser. ([PRs](https://github.com/org/repo/pulls))");
     Print (Updated default_path)].
Proof. vm_compute; reflexivity. Qed.

(* ================================================================== *)
(** ** What the short-name pattern matches *)

Section Patterns.

Lemma match_here_star (c : ascii) (r : list Re.item) (s : str) :
  Re.match_here (Re.StarNot c :: r) s
  = Re.match_here r s ||
    match s with
    | x :: t => negb (Ascii.eqb c x) && Re.match_here (Re.StarNot c :: r) t
    | [] => false
    end.
Proof. destruct s; reflexivity. Qed.

(** The lowering of the model is the lowering by the alphabets. *)
Lemma lower_char_lowercase_of (c : ascii) : lower_char c = lowercase_of c.
Proof. destruct c as [[] [] [] [] [] [] [] []]; reflexivity. Qed.

Lemma lower_lowercase_of (s : str) : lower s = map lowercase_of s.
Proof. unfold lower. apply map_ext, lower_char_lowercase_of. Qed.

(** A literal character matches at the start of a text exactly the texts
    that stand for it. *)
Lemma eat_stands_for (c : ascii) (s t : str) :
  Re.eat c s = Some t <-> exists v, stands_for c v /\ s = v ++ t.
Proof.
  split.
  - unfold Re.eat. destruct s as [|x s']; [discriminate|].
    destruct (Ascii.eqb (lower_char c) (lower_char x)) eqn:E.
    + intros [= <-]. exists [x]. split; [|reflexivity]. left. exists x.
      split; [reflexivity|]. apply Ascii.eqb_eq in E.
      now rewrite <- !lower_char_lowercase_of.
    + intros H. apply drop_first_split in H. destruct H as [v [Hv Hs]].
      exists v. split; [|exact Hs]. right. unfold Re.other_cases in Hv.
      rewrite lower_char_lowercase_of in Hv.
      destruct (Ascii.eqb (lowercase_of c) "i") eqn:Ei.
      { apply Ascii.eqb_eq in Ei. left. split; [exact Ei|].
        destruct Hv as [<- | [<- | []]]; auto. }
      destruct (Ascii.eqb (lowercase_of c) "s") eqn:Es.
      { apply Ascii.eqb_eq in Es. right; left. split; [exact Es|].
        destruct Hv as [<- | []]; auto. }
      destruct (Ascii.eqb (lowercase_of c) "k") eqn:Ek; [|contradiction].
      apply Ascii.eqb_eq in Ek. right; right. split; [exact Ek|].
      destruct Hv as [<- | []]; auto.
  - intros [v [Hv ->]].
    destruct Hv as [[x [-> Hx]] | [[Hc Hv] | [[Hc ->] | [Hc ->]]]].
    + simpl. rewrite !lower_char_lowercase_of, Hx, Ascii.eqb_refl. reflexivity.
    + destruct Hv as [-> | ->]; unfold Re.eat; cbn [map app];
        rewrite (lower_char_lowercase_of c), Hc; reflexivity.
    + unfold Re.eat; cbn [map app].
      rewrite (lower_char_lowercase_of c), Hc; reflexivity.
    + unfold Re.eat; cbn [map app].
      rewrite (lower_char_lowercase_of c), Hc; reflexivity.
Qed.

Lemma eat_None (c : ascii) (s : str) :
  Re.eat c s = None -> forall v t, stands_for c v -> s <> v ++ t.
Proof.
  intros H v t Hv E.
  assert (Re.eat c s = Some t) by (apply eat_stands_for; eauto). congruence.
Qed.

Lemma matches_nil_inv (m : str) : matches [] m -> m = [].
Proof. intros H. now inversion H. Qed.

Lemma matches_char_inv (c : ascii) (r : list Re.item) (m : str) :
  matches (Re.Char c :: r) m ->
  exists v s, m = v ++ s /\ stands_for c v /\ matches r s.
Proof. intros H. inversion H; subst. eauto. Qed.

Lemma matches_opt_inv (c : ascii) (r : list Re.item) (m : str) :
  matches (Re.Opt c :: r) m ->
  (exists v s, m = v ++ s /\ stands_for c v /\ matches r s) \/ matches r m.
Proof. intros H. inversion H; subst; eauto 6. Qed.

Lemma matches_star_inv (c : ascii) (r : list Re.item) (m : str) :
  matches (Re.StarNot c :: r) m ->
  exists xs s, m = xs ++ s /\ ~ In c xs /\ matches r s.
Proof. intros H. inversion H; subst. eauto. Qed.

(** The matcher accepts a text exactly when the pattern matches one of its
    prefixes. *)
Lemma match_here_matches (r : list Re.item) :
  forall s, Re.match_here r s = true <->
            exists m rest, s = m ++ rest /\ matches r m.
Proof.
  induction r as [|i r IH]; intros s.
  - simpl. split; [intros _ | reflexivity].
    exists [], s. split; [reflexivity | constructor].
  - destruct i as [c | c | c].
    + simpl. destruct (Re.eat c s) as [t|] eqn:E.
      * rewrite IH. apply eat_stands_for in E. destruct E as [v [Hv ->]].
        split.
        -- intros [m [rest [-> H]]]. exists (v ++ m), rest.
           split; [now rewrite app_assoc | now constructor].
        -- intros [m [rest [Em H]]]. apply matches_char_inv in H.
           destruct H as [v' [s' [-> [Hv' H]]]].
           assert (Re.eat c (v ++ t) = Some (s' ++ rest)).
           { apply eat_stands_for. exists v'. split; [exact Hv'|].
             now rewrite Em, app_assoc. }
           assert (Re.eat c (v ++ t) = Some t)
             by (apply eat_stands_for; eauto).
           assert (t = s' ++ rest) by congruence. subst t. eauto.
      * split; [discriminate|]. intros [m [rest [Em H]]].
        apply matches_char_inv in H. destruct H as [v [s' [-> [Hv H]]]].
        exfalso. apply (eat_None c s E v (s' ++ rest) Hv).
        now rewrite Em, app_assoc.
    + change (Re.match_here (Re.Opt c :: r) s)
        with (match Re.eat c s with
              | Some t => Re.match_here r t
              | None => false
              end || Re.match_here r s).
      rewrite orb_true_iff. split.
      * intros [H | H].
        -- destruct (Re.eat c s) as [t|] eqn:E; [|discriminate].
           apply eat_stands_for in E. destruct E as [v [Hv ->]].
           apply IH in H. destruct H as [m [rest [-> H]]].
           exists (v ++ m), rest.
           split; [now rewrite app_assoc | now constructor].
        -- apply IH in H. destruct H as [m [rest [-> H]]].
           exists m, rest. split; [reflexivity | now apply matches_opt_none].
      * intros [m [rest [Em H]]]. apply matches_opt_inv in H.
        destruct H as [[v [s' [-> [Hv H]]]] | H].
        -- left. assert (E : Re.eat c s = Some (s' ++ rest)).
           { apply eat_stands_for. exists v. split; [exact Hv|].
             now rewrite Em, app_assoc. }
           rewrite E. apply IH. eauto.
        -- right. apply IH. eauto.
    + split.
      * induction s as [|x t IHs]; rewrite match_here_star, orb_true_iff.
        -- intros [H | H]; [|discriminate]. apply IH in H.
           destruct H as [m [rest [E H]]]. exists m, rest.
           split; [exact E|]. now apply (matches_star c []).
        -- intros [H | H].
           ++ apply IH in H. destruct H as [m [rest [E H]]]. exists m, rest.
              split; [exact E|]. now apply (matches_star c []).
           ++ apply andb_true_iff in H. destruct H as [Hc H].
              apply negb_true_iff, Ascii.eqb_neq in Hc.
              destruct (IHs H) as [m [rest [-> Hm]]].
              apply matches_star_inv in Hm.
              destruct Hm as [xs [s' [-> [Hxs Hs']]]].
              exists ((x :: xs) ++ s'), rest. split.
              ** simpl. now rewrite <- app_assoc.
              ** apply matches_star; [|exact Hs'].
                 intros [Hin | Hin]; [now apply Hc | now apply Hxs].
      * intros [m [rest [-> H]]]. apply matches_star_inv in H.
        destruct H as [xs [s' [-> [Hxs Hr]]]].
        induction xs as [|x xs IHxs].
        -- simpl app. rewrite match_here_star. apply orb_true_iff. left.
           apply IH. eauto.
        -- simpl app. rewrite match_here_star. apply orb_true_iff. right.
           apply andb_true_iff. split.
           ++ apply negb_true_iff, Ascii.eqb_neq. intros ->.
              apply Hxs. now left.
           ++ apply IHxs. intros Hin. apply Hxs. now right.
Qed.

(** The search succeeds exactly when the pattern matches a part of the
    text. *)
Lemma search_matches (r : list Re.item) (s : str) :
  Re.search r s = true <->
  exists pre m post, s = pre ++ m ++ post /\ matches r m.
Proof.
  induction s as [|x t IH].
  - simpl. rewrite orb_false_r, match_here_matches. split.
    + intros [m [rest [E H]]]. now exists [], m, rest.
    + intros [pre [m [post [E H]]]]. destruct pre; [|discriminate].
      exists m, post. auto.
  - simpl. rewrite orb_true_iff, match_here_matches, IH. split.
    + intros [[m [rest [E H]]] | [pre [m [post [E H]]]]].
      * now exists [], m, rest.
      * exists (x :: pre), m, post. split; [simpl; congruence | exact H].
    + intros [pre [m [post [E H]]]]. destruct pre as [|p pre].
      * left. exists m, post. auto.
      * right. injection E as -> ->. eauto.
Qed.

Lemma matches_app (r1 r2 : list Re.item) :
  forall m, matches (r1 ++ r2) m <->
            exists m1 m2, m = m1 ++ m2 /\ matches r1 m1 /\ matches r2 m2.
Proof.
  induction r1 as [|i r1 IH]; intros m; simpl.
  - split.
    + intros H. exists [], m. repeat split; [constructor | exact H].
    + intros [m1 [m2 [-> [H1 H2]]]]. apply matches_nil_inv in H1. now subst.
  - split.
    + intros H. destruct i as [c | c | c].
      * apply matches_char_inv in H. destruct H as [v [s [-> [Hc H]]]].
        apply IH in H. destruct H as [m1 [m2 [-> [H1 H2]]]].
        exists (v ++ m1), m2.
        repeat split; [now rewrite app_assoc | now constructor | exact H2].
      * apply matches_opt_inv in H.
        destruct H as [[v [s [-> [Hc H]]]] | H];
          apply IH in H; destruct H as [m1 [m2 [-> [H1 H2]]]].
        -- exists (v ++ m1), m2.
           repeat split; [now rewrite app_assoc | now constructor | exact H2].
        -- exists m1, m2.
           repeat split; [now apply matches_opt_none | exact H2].
      * apply matches_star_inv in H. destruct H as [xs [s [-> [Hx H]]]].
        apply IH in H. destruct H as [m1 [m2 [-> [H1 H2]]]].
        exists (xs ++ m1), m2.
        repeat split; [now rewrite app_assoc | now constructor | exact H2].
    + intros [m1 [m2 [-> [H1 H2]]]]. destruct i as [c | c | c].
      * apply matches_char_inv in H1. destruct H1 as [v [s [-> [Hc H]]]].
        rewrite <- app_assoc. constructor; [assumption|]. apply IH. eauto.
      * apply matches_opt_inv in H1.
        destruct H1 as [[v [s [-> [Hc H]]]] | H].
        -- rewrite <- app_assoc. constructor; [assumption|]. apply IH. eauto.
        -- apply matches_opt_none. apply IH. eauto.
      * apply matches_star_inv in H1. destruct H1 as [xs [s [-> [Hx H]]]].
        rewrite <- app_assoc. constructor; [assumption|]. apply IH. eauto.
Qed.

Lemma matches_escape (short m : str) :
  matches (Re.escape short) m <-> same_ignoring_case short m.
Proof.
  unfold Re.escape, same_ignoring_case. revert m.
  induction short as [|c short IH]; intros m; simpl.
  - split.
    + intros H. apply matches_nil_inv in H. subst. exists []. split; constructor.
    + intros [parts [H ->]]. inversion H. constructor.
  - split.
    + intros H. apply matches_char_inv in H. destruct H as [v [s [-> [Hv H]]]].
      apply IH in H. destruct H as [parts [Hp ->]].
      exists (v :: parts). split; [now constructor | reflexivity].
    + intros [parts [H ->]]. inversion H as [|? v ? ps Hv Hps]; subst.
      simpl. constructor; [exact Hv|]. apply IH. eauto.
Qed.

(** A character that is not a letter stands only for itself. *)
Lemma stands_for_star (v : str) : stands_for "*" v <-> v = lit "*".
Proof.
  split.
  - intros [[x [-> Hx]] | [[H _] | [[H _] | [H _]]]]; try discriminate H.
    destruct x as [[] [] [] [] [] [] [] []]; try discriminate Hx. reflexivity.
  - intros ->. left. now exists "*"%char.
Qed.

Lemma stands_for_open (v : str) : stands_for "[" v <-> v = lit "[".
Proof.
  split.
  - intros [[x [-> Hx]] | [[H _] | [[H _] | [H _]]]]; try discriminate H.
    destruct x as [[] [] [] [] [] [] [] []]; try discriminate Hx. reflexivity.
  - intros ->. left. now exists "["%char.
Qed.

Lemma stands_for_close (v : str) : stands_for "]" v <-> v = lit "]".
Proof.
  split.
  - intros [[x [-> Hx]] | [[H _] | [[H _] | [H _]]]]; try discriminate H.
    destruct x as [[] [] [] [] [] [] [] []]; try discriminate Hx. reflexivity.
  - intros ->. left. now exists "]"%char.
Qed.

(** The opening of the pattern: [**], then text without a closing
    bracket. *)
Lemma matches_opening (m : str) :
  matches [Re.Char "*"; Re.Char "*"; Re.Opt "["; Re.StarNot "]"] m <->
  exists x, m = lit "**" ++ x /\ ~ In "]"%char x.
Proof.
  split.
  - intros H.
    apply matches_char_inv in H. destruct H as [a [s [-> [Ha H]]]].
    apply matches_char_inv in H. destruct H as [b [s' [-> [Hb H]]]].
    apply stands_for_star in Ha, Hb. subst a b.
    apply matches_opt_inv in H. destruct H as [[o [t [-> [Ho H]]]] | H];
      apply matches_star_inv in H; destruct H as [xs [e [-> [Hx H]]]];
      apply matches_nil_inv in H; subst e; rewrite app_nil_r.
    + apply stands_for_open in Ho. subst o. exists ("["%char :: xs).
      split; [reflexivity|]. intros [Hin | Hin]; [discriminate | contradiction].
    + exists xs. split; [reflexivity | exact Hx].
  - intros [x [-> Hx]].
    apply (matches_char "*" (lit "*")); [now apply stands_for_star|].
    apply (matches_char "*" (lit "*")); [now apply stands_for_star|].
    apply matches_opt_none. rewrite <- (app_nil_r x).
    constructor; [exact Hx | constructor].
Qed.

(** The closing of the pattern: text without a closing bracket, one closing
    bracket or none, then [**]. *)
Lemma matches_closing (m : str) :
  matches [Re.StarNot "]"; Re.Opt "]"; Re.Char "*"; Re.Char "*"] m <->
  exists y cb, m = y ++ cb ++ lit "**" /\ (cb = [] \/ cb = lit "]") /\
               ~ In "]"%char y.
Proof.
  split.
  - intros H. apply matches_star_inv in H. destruct H as [ys [s [-> [Hy H]]]].
    apply matches_opt_inv in H. destruct H as [[o [t [-> [Ho H]]]] | H];
      apply matches_char_inv in H; destruct H as [a [s' [-> [Ha H]]]];
      apply matches_char_inv in H; destruct H as [b [s'' [-> [Hb H]]]];
      apply matches_nil_inv in H; subst s'';
      apply stands_for_star in Ha, Hb; subst a b.
    + apply stands_for_close in Ho. subst o. exists ys, (lit "]"). auto.
    + exists ys, []. auto.
  - intros [y [cb [-> [Hcb Hy]]]].
    constructor; [exact Hy|].
    assert (Hstars : matches [Re.Char "*"; Re.Char "*"] (lit "**")).
    { apply (matches_char "*" (lit "*") _ (lit "*"));
        [now apply stands_for_star|].
      apply (matches_char "*" (lit "*") _ []);
        [now apply stands_for_star | constructor]. }
    destruct Hcb as [-> | ->].
    + now apply matches_opt_none.
    + apply (matches_opt_one "]" (lit "]")); [now apply stands_for_close|].
      exact Hstars.
Qed.

(** The pattern built from a short name finds the bold mentions of the
    name. *)
Lemma search_short_name_pattern (short text : str) :
  Re.search (short_name_pattern short) text = true <-> bold_mention short text.
Proof.
  rewrite search_matches. unfold short_name_pattern, bold_mention. split.
  - intros [pre [m [post [-> H]]]].
    apply matches_app in H. destruct H as [m1 [m' [-> [H1 H]]]].
    apply matches_app in H. destruct H as [m2 [m3 [-> [H2 H3]]]].
    apply matches_opening in H1. destruct H1 as [x [-> Hx]].
    apply matches_escape in H2.
    apply matches_closing in H3. destruct H3 as [y [cb [-> [Hcb Hy]]]].
    exists pre, x, m2, y, cb, post. repeat split; try assumption.
    now rewrite <- !app_assoc.
  - intros [pre [x [name [y [cb [post [-> [Hcb [Hx [Hy Hn]]]]]]]]]].
    exists pre, (lit "**" ++ x ++ name ++ y ++ cb ++ lit "**"), post. split.
    + now rewrite <- !app_assoc.
    + apply matches_app. exists (lit "**" ++ x), (name ++ y ++ cb ++ lit "**").
      split; [now rewrite <- !app_assoc|]. split.
      * apply matches_opening. eauto.
      * apply matches_app. exists name, (y ++ cb ++ lit "**").
        split; [reflexivity|]. split.
        -- now apply matches_escape.
        -- apply matches_closing. eauto.
Qed.

End Patterns.

(* ================================================================== *)
(** ** The duplicate check *)

Section Duplicates.

Lemma is_common_name_In (short : str) :
  is_common_name short = true <-> In short common_names.
Proof.
  unfold is_common_name. rewrite existsb_exists. split.
  - intros [x [Hx E]]. unfold str_eqb in E.
    destruct (list_eq_dec ascii_dec short x); [now subst | discriminate].
  - intros H. exists short. split; [exact H | apply str_eqb_refl].
Qed.

Lemma buffer_printed_inj (text text' : str) (m m' : bool)
    (out : list message) (x y : message) :
  mkBuffer text m (out ++ [x]) = mkBuffer text' m' (out ++ [y]) -> x = y.
Proof.
  intros H. injection H as _ _ H. apply app_inv_head in H. congruence.
Qed.

End Duplicates.

(** When an iteration ends at a [continue]. *)
Lemma skipped_iff (category : str) (b : buffer) (e : Entry) :
  skipped category b e <->
  contains (github_link (repo e)) (content b) = true \/
  (is_common_name (repo_short_name (repo e)) = false /\
   Re.search (short_name_pattern (repo_short_name (repo e))) (content b) = true).
Proof.
  pose proof (add_entry_cases category b e) as H. cbv zeta in H.
  destruct H as [[Hl E] | [[Hl [Hc [Hr E]]] | [Hl [Hc [z [_ E]]]]]].
  - split; [now left | intros _; now exists ExactLink].
  - split; [intros _; right; now split | intros _; now exists ShortName].
  - split.
    + intros [why Hw]. rewrite E in Hw. apply buffer_printed_inj in Hw.
      discriminate Hw.
    + intros [H | [Hn Hr]]; [congruence|].
      destruct Hc as [Hc | Hc]; congruence.
Qed.

Lemma last_segment_aux_plain (sep : ascii) (seg : str) :
  ~ In sep seg -> forall acc, last_segment_aux sep seg acc = rev acc ++ seg.
Proof.
  induction seg as [|c seg IH]; intros Hn acc; simpl.
  - now rewrite app_nil_r.
  - destruct (Ascii.eqb c sep) eqn:E.
    + apply Ascii.eqb_eq in E. subst c. exfalso. apply Hn. now left.
    + rewrite IH by (intros H; apply Hn; now right).
      simpl. now rewrite <- app_assoc.
Qed.

Lemma last_segment_aux_after (sep : ascii) (pre seg : str) :
  forall acc,
    last_segment_aux sep (pre ++ sep :: seg) acc = last_segment_aux sep seg [].
Proof.
  induction pre as [|c pre IH]; intros acc; simpl.
  - now rewrite Ascii.eqb_refl.
  - destruct (Ascii.eqb c sep); apply IH.
Qed.

(** The model takes the final path segment. *)
Lemma last_segment_final (identifier seg : str) :
  final_segment identifier seg -> last_segment "/" identifier = seg.
Proof.
  intros [Hn [-> | [pre ->]]]; unfold last_segment.
  - now rewrite last_segment_aux_plain.
  - now rewrite last_segment_aux_after, last_segment_aux_plain.
Qed.

(** C8.  Let the identifier of the entry be ASCII, [seg] its final path
    segment and [short] that segment in lower case.  When [short] is one of
    [galaxy], [content], [utils], [tools], the entry is skipped as a
    duplicate exactly when its link [github.com/<identifier>] occurs in the
    document: the bold-text check plays no part.  For every other short name
    the entry is skipped exactly when the link occurs or the document has a
    bold mention of the short name, case ignored, anywhere. *)
Theorem short_name_check (category : str) (b : buffer) (e : Entry)
    (seg short : str) :
  is_ascii (repo e) = true ->
  final_segment (repo e) seg ->
  short = map lowercase_of seg ->
  (In short [lit "galaxy"; lit "content"; lit "utils"; lit "tools"] ->
   (skipped category b e <->
    occurs (lit "github.com/" ++ repo e) (content b))) /\
  (~ In short [lit "galaxy"; lit "content"; lit "utils"; lit "tools"] ->
   (skipped category b e <->
    occurs (lit "github.com/" ++ repo e) (content b) \/
    bold_mention short (content b))).
Proof.
  intros _ Hseg Hshort.
  assert (Es : repo_short_name (repo e) = short).
  { unfold repo_short_name. rewrite (last_segment_final _ _ Hseg).
    now rewrite lower_lowercase_of. }
  change [lit "galaxy"; lit "content"; lit "utils"; lit "tools"]
    with common_names.
  rewrite <- is_common_name_In, skipped_iff, Es, search_short_name_pattern.
  rewrite <- contains_occurs.
  change (github_link (repo e)) with (lit "github.com/" ++ repo e).
  destruct (is_common_name short); split; intros H; try congruence;
    intuition congruence.
Qed.

Lemma short_name_check_witness :
  (In (lit "bioblend")
      [lit "galaxy"; lit "content"; lit "utils"; lit "tools"] ->
   (skipped (lit "Tools") (mkBuffer page_talks false []) bioblend <->
    occurs (lit "github.com/" ++ repo bioblend) page_talks)) /\
  (~ In (lit "bioblend")
        [lit "galaxy"; lit "content"; lit "utils"; lit "tools"] ->
   (skipped (lit "Tools") (mkBuffer page_talks false []) bioblend <->
    occurs (lit "github.com/" ++ repo bioblend) page_talks \/
    bold_mention (lit "bioblend") page_talks)).
Proof.
  apply (short_name_check (lit "Tools") (mkBuffer page_talks false [])
           bioblend (lit "bioblend") (lit "bioblend")).
  - reflexivity.
  - split.
    + intros H. vm_compute in H.
      repeat (destruct H as [H | H]; [discriminate H|]). exact H.
    + right. exists (lit "galaxyproject"). reflexivity.
  - reflexivity.
Defined.

(** C10.  The link check is a plain substring test: when the document has a
    link that continues the link of the entry, as [github.com/org/repo-extra]
    continues [github.com/org/repo], the entry is skipped as already
    documented and the buffer is left as it was. *)
Theorem longer_link_hides_entry (category : str) (b : buffer) (e : Entry)
    (extra : str) :
  contains (github_link (repo e) ++ extra) (content b) = true ->
  add_entry category b e
  = mkBuffer (content b) (modified b)
             (printed b ++ [Skipping (repo e) ExactLink]).
Proof.
  intros H. apply contains_occurs in H.
  assert (Hl : contains (github_link (repo e)) (content b) = true).
  { apply contains_occurs. eapply occurs_trans; [|exact H]. apply occurs_app_l. }
  unfold add_entry. now rewrite Hl.
Qed.

Lemma longer_link_hides_entry_witness :
  contains (lit "(https://github.com/org/repo)") page_longer_name = false /\
  add_entry (lit "Tools") (mkBuffer page_longer_name false []) org_repo
  = mkBuffer page_longer_name false [Skipping (lit "org/repo") ExactLink].
Proof.
  split; [vm_compute; reflexivity|].
  apply (longer_link_hides_entry (lit "Tools")
           (mkBuffer page_longer_name false []) org_repo (lit "-extra")).
  vm_compute; reflexivity.
Defined.

(* ================================================================== *)
(** ** Where the script departs from the description *)

(** C1.  The entry [org/repo] is listed in [page_listed] under [Tools].
    Merged into the category [Libraries], which has no heading yet, it is
    written a second time: the path that creates a section does not look for
    the link. *)
Theorem new_category_repeats_listed_entry :
  contains (github_link (repo org_repo)) page_listed = true /\
  contains (section_pattern (lit "Libraries")) page_listed = false /\
  writes (snd (run [(lit "Libraries", [org_repo])] page_listed))
  = [(default_path,
      line "## Notable Open-Source Contributions" ++ line ""
        ++ line "### Libraries"
        ++ line "- **[org/repo](https://github.com/org/repo)** - Reworked the parser. ([PRs](https://github.com/org/repo/pulls))"
        ++ line ""
        ++ line "### Tools"
        ++ line "- **[org/repo](https://github.com/org/repo)** - A parser. ([PRs](https://github.com/org/repo/pulls))")].
Proof. repeat split; vm_compute; reflexivity. Qed.

(** C6.  In [page_tight] the heading [## Talks] follows the last bullet line
    of [### Tools] with no blank line between them.  The new entry is spliced
    in before the line break that ends that bullet line, so it continues the
    existing line instead of starting one of its own. *)
Theorem tight_section_glues_entry :
  writes (snd (run [(lit "Tools", [pulsar])] page_tight))
  = [(default_path,
      line "## Notable Open-Source Contributions" ++ line ""
        ++ line "### Tools"
        ++ line "- **[org/repo](https://github.com/org/repo)** - A parser. ([PRs](https://github.com/org/repo/pulls))- **[galaxyproject/pulsar](https://github.com/galaxyproject/pulsar)** - Added a runner. ([PRs](https://github.com/galaxyproject/pulsar/pulls))"
        ++ line ""
        ++ line "## Talks")].
Proof. vm_compute; reflexivity. Qed.

(** C7.  When no line break follows the anchor heading, the search for the
    end of its line fails and the new section is placed at the start of the
    document, before the anchor heading. *)
Theorem anchor_without_line_break :
  find_from page_anchor_only [NL]
            (find page_anchor_only notable_section + len notable_section) = -1 /\
  writes (snd (run [(lit "Libraries", [org_repo])] page_anchor_only))
  = [(default_path,
      line "" ++ line "### Libraries"
        ++ line "- **[org/repo](https://github.com/org/repo)** - Reworked the parser. ([PRs](https://github.com/org/repo/pulls))"
        ++ lit "## Notable Open-Source Contributions")].
Proof. split; vm_compute; reflexivity. Qed.

(** The same merge on a document whose anchor heading ends with a line break:
    the new heading and the bullet line go in after the line break at [q],
    which is at or after the end of the anchor heading. *)
Lemma new_category_after_anchor_line (category : str) (e : Entry)
    (text : str) (q : Z) :
  contains (section_pattern category) text = false ->
  contains notable_section text = true ->
  find_from text [NL] (find text notable_section + len notable_section) = q ->
  q <> -1 ->
  merge [(category, [e])] text
  = mkBuffer (slice_to text (q + 1)
                ++ ((NL :: lit "### " ++ category ++ [NL]) ++ format_entry e)
                ++ slice_from text (q + 1))
             true [AddedCategory category] /\
  find text notable_section + len notable_section <= q /\
  exists rest, slice_from text q = NL :: rest.
Proof.
  intros Hs Hn Hq Hne. split; [|split].
  - unfold merge, merge_category, create_category.
    cbn [fold_left content modified printed app]. rewrite Hs, Hn, Hq.
    reflexivity.
  - pose proof (find_contains _ _ Hn) as Hf.
    apply (find_from_after text [NL]); [unfold len; lia | exact Hq | exact Hne].
  - destruct (find_from_found _ _ _ _ Hq Hne) as [Hr [r Hsk]].
    exists r. unfold slice_from. now rewrite clamp_inside by exact Hr.
Qed.

(* ================================================================== *)
(** ** [main] without a token *)

(** C9.  When [GITHUB_TOKEN] is not in the environment, [main] prints the
    error and returns: it sends no request and opens no file, and the disk is
    as it was. *)
Theorem main_without_token (w : world) :
  environ w (lit "GITHUB_TOKEN") = None ->
  main w = (disk w, [Print TokenNotSet]) /\
  existsb is_external (snd (main w)) = false.
Proof.
  intros H. unfold main. rewrite H. split; reflexivity.
Qed.

Lemma main_without_token_witness :
  main bare_world = (disk bare_world, [Print TokenNotSet]) /\
  existsb is_external (snd (main bare_world)) = false.
Proof.
  apply (main_without_token bare_world). reflexivity.
Defined.

(** An empty token is treated as a missing one. *)
Lemma main_with_empty_token (w : world) :
  environ w (lit "GITHUB_TOKEN") = Some [] ->
  main w = (disk w, [Print TokenNotSet]).
Proof. intros H. unfold main. now rewrite H. Qed.

(* ================================================================== *)
(** ** Running the merge twice *)

Section Twice.

Lemma plain_rev (s : str) : plain s -> plain (rev s).
Proof. intros H c Hc. apply H. now apply in_rev. Qed.

(** A line of a text has no line break and is part of the text. *)
Lemma lines_from_line (s : str) :
  forall acc l, plain acc -> In l (lines_from s acc) ->
                plain l /\ occurs l (rev acc ++ s).
Proof.
  induction s as [|c t IH]; intros acc l Ha; simpl.
  - intros [<- | []]. split; [now apply plain_rev | apply occurs_app_l].
  - destruct (is_break c) eqn:Ec.
    + intros [<- | Hin].
      * split; [now apply plain_rev | apply occurs_app_l].
      * destruct (IH [] l (fun x (H : In x []) => match H with end) Hin)
          as [Hp Ho].
        split; [exact Hp|]. simpl in Ho.
        apply occurs_in_app_r. exact (occurs_in_app_r l [c] t Ho).
    + intros Hin.
      assert (Hca : plain (c :: acc)).
      { intros x [<- | Hx]; [exact Ec | now apply Ha]. }
      destruct (IH (c :: acc) l Hca Hin) as [Hp Ho].
      split; [exact Hp|]. simpl in Ho. now rewrite <- app_assoc in Ho.
Qed.

Lemma search_occurs (r : list Re.item) (m text : str) :
  Re.search r m = true -> occurs m text -> Re.search r text = true.
Proof.
  rewrite !search_matches. intros [pre [w [post [-> Hw]]]] [l [t ->]].
  exists (l ++ pre), w, (post ++ t). split; [|exact Hw].
  now rewrite <- !app_assoc.
Qed.

(** A match inside one line is a match in a text without line breaks that
    is part of the document. *)
Lemma line_search_plain (r : list Re.item) (text : str) :
  line_search r text = true ->
  exists m, plain m /\ occurs m text /\ Re.search r m = true.
Proof.
  unfold line_search, lines. intros H. apply existsb_exists in H.
  destruct H as [l [Hin Hs]].
  destruct (lines_from_line text [] l
              (fun x (H : In x []) => match H with end) Hin) as [Hp Ho].
  exists l. auto.
Qed.

Lemma settled_duplicate (text : str) (e : Entry) :
  settled text e -> duplicate_in text e.
Proof.
  intros [H | [Hc [m [_ [Ho Hs]]]]]; [now left | right].
  split; [exact Hc | exact (search_occurs _ _ _ Hs Ho)].
Qed.

Lemma settled_keeps (a b : str) (e : Entry) :
  one_line (repo e) -> keeps_lines a b -> settled a e -> settled b e.
Proof.
  intros Hr Hk [H | [Hc [m [Hp [Ho Hs]]]]].
  - left. apply Hk; [now apply one_line_github_link | exact H].
  - right. split; [exact Hc|]. exists m. repeat split; auto.
    apply contains_occurs, Hk; [now apply plain_one_line|].
    now apply contains_occurs.
Qed.

Lemma plain_github_link (repo_name : str) :
  plain repo_name -> plain (github_link repo_name).
Proof.
  intros H. apply plain_app; [|exact H]. apply plainb_true. reflexivity.
Qed.

Lemma plain_section_pattern (category : str) :
  plain category -> plain (section_pattern category).
Proof.
  intros H. apply plain_app; [|exact H]. apply plainb_true. reflexivity.
Qed.

Lemma settled_read (text : str) (e : Entry) :
  plain (repo e) -> settled text e -> settled (universal_newlines text) e.
Proof.
  intros Hr [H | [Hc [m [Hp [Ho Hs]]]]].
  - left. rewrite contains_universal_newlines; [exact H|].
    now apply plain_github_link.
  - right. split; [exact Hc|]. exists m. repeat split; auto.
    apply contains_occurs. rewrite contains_universal_newlines by exact Hp.
    now apply contains_occurs.
Qed.

(** After an iteration that does not rest on a match across lines, the
    entry is settled. *)
Lemma add_entry_settles (category : str) (b : buffer) (e : Entry) :
  spans_lines b e = false ->
  settled (content (add_entry category b e)) e.
Proof.
  intros Hsp. pose proof (add_entry_cases category b e) as H. cbv zeta in H.
  destruct H as [[Hl ->] | [[Hl [Hc [Hr ->]]] | [_ [_ [z [_ ->]]]]]];
    cbn [content].
  - now left.
  - right. split; [exact Hc|]. apply line_search_plain.
    unfold spans_lines in Hsp. rewrite Hl, Hc, Hr in Hsp. simpl in Hsp.
    now apply negb_false_iff in Hsp.
  - left. apply splice_contains_new, format_entry_link.
Qed.

Lemma add_entries_settle (category : str) (entries : list Entry) :
  one_line category ->
  (forall e, In e entries -> one_line (repo e)) ->
  forall b,
    contains (section_pattern category) (content b) = true ->
    fragile_entries category entries b = false ->
    keeps_lines (content b)
                (content (fold_left (add_entry category) entries b)) /\
    forall e, In e entries ->
      settled (content (fold_left (add_entry category) entries b)) e.
Proof.
  intros Hcat. induction entries as [|e es IH]; intros Hes b Hc Hf;
    cbn [fold_left fragile_entries] in *.
  - split; [apply keeps_lines_refl | contradiction].
  - apply orb_false_iff in Hf. destruct Hf as [Hsp Hf].
    set (b1 := add_entry category b e) in *.
    assert (Hk1 : keeps_lines (content b) (content b1))
      by now apply add_entry_keeps_lines.
    assert (Hc1 : contains (section_pattern category) (content b1) = true).
    { apply Hk1; [now apply one_line_section_pattern | exact Hc]. }
    destruct (IH (fun x Hx => Hes x (or_intror Hx)) b1 Hc1 Hf) as [Hk Hl].
    split.
    + eapply keeps_lines_trans; eassumption.
    + intros x [<- | Hx]; [|now apply Hl].
      apply (settled_keeps (content b1)); [apply Hes; now left | exact Hk|].
      now apply add_entry_settles.
Qed.

Lemma merge_loop_settle (categorized_entries : Categorized) :
  single_lines categorized_entries ->
  forall b,
    contains notable_section (content b) = true ->
    fragile_from categorized_entries b = false ->
    keeps_lines (content b)
                (content (fold_left merge_category categorized_entries b)) /\
    forall item, In item categorized_entries ->
      contains (section_pattern (fst item))
               (content (fold_left merge_category categorized_entries b))
      = true /\
      forall e, In e (snd item) ->
        settled (content (fold_left merge_category categorized_entries b)) e.
Proof.
  induction categorized_entries as [|[category entries] rest IH];
    intros Hw b Hn Hf; cbn [fold_left fragile_from] in *.
  - split; [apply keeps_lines_refl | contradiction].
  - apply orb_false_iff in Hf. destruct Hf as [Hfe Hf]. cbn [fst snd] in Hfe.
    destruct (Hw _ (or_introl eq_refl)) as [Hcat Hes]. cbn [fst snd] in *.
    set (b1 := merge_category b (category, entries)) in *.
    assert (H1 : keeps_lines (content b) (content b1) /\
                 contains (section_pattern category) (content b1) = true /\
                 forall e, In e entries -> settled (content b1) e).
    { unfold b1, merge_category.
      destruct (contains (section_pattern category) (content b)) eqn:Hc;
        cbn [negb].
      - simpl in Hfe.
        destruct (add_entries_settle category entries Hcat Hes b Hc Hfe)
          as [Hk Hl].
        repeat split; auto.
        apply Hk; [now apply one_line_section_pattern | exact Hc].
      - destruct (create_category_cover category entries b Hn)
          as [Hk [Hh Hl]]. cbn [fst snd] in *.
        repeat split; auto. intros e He. left. now apply Hl. }
    destruct H1 as [Hk1 [Hh1 Hl1]].
    assert (Hn1 : contains notable_section (content b1) = true)
      by (apply Hk1; [apply one_line_notable | exact Hn]).
    destruct (IH (fun x Hx => Hw x (or_intror Hx)) b1 Hn1 Hf) as [Hk Hl].
    split; [eapply keeps_lines_trans; eassumption|].
    intros x [<- | Hx]; [|now apply Hl]. cbn [fst snd]. split.
    + apply Hk; [now apply one_line_section_pattern | exact Hh1].
    + intros e He. apply (settled_keeps (content b1)); auto.
Qed.

(** On a text in which every entry is taken for a duplicate the loop adds
    nothing. *)
Lemma add_entries_all_skipped (category : str) (entries : list Entry) :
  forall b,
    (forall e, In e entries -> duplicate_in (content b) e) ->
    exists extra,
      fold_left (add_entry category) entries b
      = mkBuffer (content b) (modified b) (printed b ++ extra) /\
      existsb is_added extra = false.
Proof.
  induction entries as [|e es IH]; intros b H; simpl.
  - exists []. rewrite app_nil_r. now destruct b.
  - assert (Hs : skipped category b e)
      by (apply skipped_iff, H; now left).
    destruct Hs as [why E]. rewrite E.
    destruct (IH (mkBuffer (content b) (modified b)
                           (printed b ++ [Skipping (repo e) why])))
      as [extra [E' Hx]].
    { intros x Hx. cbn [content]. apply H. now right. }
    exists (Skipping (repo e) why :: extra). rewrite E'. cbn [content modified
      printed]. rewrite <- app_assoc. split; [reflexivity | exact Hx].
Qed.

Lemma merge_loop_all_skipped (categorized_entries : Categorized) :
  forall b,
    (forall item, In item categorized_entries ->
       contains (section_pattern (fst item)) (content b) = true /\
       forall e, In e (snd item) -> duplicate_in (content b) e) ->
    exists extra,
      fold_left merge_category categorized_entries b
      = mkBuffer (content b) (modified b) (printed b ++ extra) /\
      existsb is_added extra = false.
Proof.
  induction categorized_entries as [|[category entries] rest IH];
    intros b H; simpl.
  - exists []. rewrite app_nil_r. now destruct b.
  - destruct (H _ (or_introl eq_refl)) as [Hc Hl]. cbn [fst snd] in Hc, Hl.
    rewrite Hc. cbn [negb].
    destruct (add_entries_all_skipped category entries b Hl)
      as [x1 [E1 Hx1]]. rewrite E1.
    destruct (IH (mkBuffer (content b) (modified b) (printed b ++ x1)))
      as [x2 [E2 Hx2]].
    { intros item Hi. cbn [content]. apply H. now right. }
    exists (x1 ++ x2). rewrite E2. cbn [content modified printed].
    rewrite <- app_assoc, existsb_app, Hx1, Hx2. split; reflexivity.
Qed.

Lemma plain_names_single_lines (categorized_entries : Categorized) :
  plain_names categorized_entries = true ->
  single_lines categorized_entries /\
  forall item, In item categorized_entries ->
    plain (fst item) /\ forall e, In e (snd item) -> plain (repo e).
Proof.
  unfold plain_names. rewrite forallb_forall. intros H.
  assert (Hp : forall item, In item categorized_entries ->
                 plain (fst item) /\
                 forall e, In e (snd item) -> plain (repo e)).
  { intros item Hi. specialize (H item Hi). apply andb_true_iff in H.
    destruct H as [Hc He]. split; [now apply plainb_true|].
    rewrite forallb_forall in He. intros e Hin. specialize (He e Hin).
    apply andb_true_iff in He. now apply plainb_true. }
  split; [|exact Hp]. intros item Hi. destruct (Hp item Hi) as [Hc He].
  split; [now apply plain_one_line|]. intros e Hin.
  now apply plain_one_line, He.
Qed.

(** The second of two runs, on the text the first one left, as it is read
    again. *)
Lemma merge_again (categorized_entries : Categorized) (text : str) :
  plain_names categorized_entries = true ->
  contains notable_section text = true ->
  fragile categorized_entries text = false ->
  exists extra,
    merge categorized_entries
          (universal_newlines (content (merge categorized_entries text)))
    = mkBuffer (universal_newlines (content (merge categorized_entries text)))
               false extra /\
    existsb is_added extra = false.
Proof.
  intros Hn Ha Hf. destruct (plain_names_single_lines _ Hn) as [Hw Hp].
  destruct (merge_loop_settle categorized_entries Hw (mkBuffer text false [])
                              Ha Hf) as [_ Hset].
  fold (merge categorized_entries text) in Hset.
  apply (merge_loop_all_skipped categorized_entries
           (mkBuffer (universal_newlines
                        (content (merge categorized_entries text))) false [])).
  intros item Hi. cbn [content]. destruct (Hset item Hi) as [Hh Hl].
  destruct (Hp item Hi) as [Hc He]. split.
  - rewrite contains_universal_newlines; [exact Hh|].
    now apply plain_section_pattern.
  - intros e Hin. apply settled_duplicate, settled_read; auto.
Qed.

End Twice.

(** C2, as amended.  Let the category names and the repository identifiers
    have no line break ([\n] or [\r]) and the identifiers be ASCII; let the
    document, as read and pruned, have the anchor heading; let the file be
    writable; let the first run skip no entry on a short-name match that
    spans lines (every such skip has a match inside one line); and let the
    text the first run leaves, as read again, have no old section to prune.
    Then a second run with the same input on the result of the first adds
    nothing: it reports no addition, writes nothing, and the file stays as
    the first run left it. *)
Theorem second_run_changes_nothing (categorized_entries : Categorized)
    (path bytes : str) (fs : files) :
  text fs path = Some bytes ->
  on_write fs path = WriteOk ->
  plain_names categorized_entries = true ->
  contains notable_section (prune (universal_newlines bytes)) = true ->
  fragile categorized_entries (prune (universal_newlines bytes)) = false ->
  prune (universal_newlines
           (content (merge categorized_entries
                           (prune (universal_newlines bytes)))))
  = universal_newlines
      (content (merge categorized_entries
                      (prune (universal_newlines bytes)))) ->
  let fs1 := fst (update_projects_file categorized_entries path fs) in
  exists out,
    update_projects_file categorized_entries path fs1 = (fs1, out) /\
    writes out = [] /\
    reports_addition out = false.
Proof.
  intros Ht Hw Hl Hn Hs Hp fs1. subst fs1.
  destruct categorized_entries as [|item rest].
  { simpl. eexists. repeat split. }
  set (cats := item :: rest) in *.
  set (b1 := merge cats (prune (universal_newlines bytes))) in *.
  destruct (merge_flag cats (prune (universal_newlines bytes))) as [Hflag _].
  fold b1 in Hflag.
  assert (E1 : update_projects_file cats path fs
               = if modified b1
                 then (store fs path (content b1),
                       OpenRead path :: map Print (printed b1)
                         ++ [OpenWrite path; Write path (content b1);
                             Print (Updated path)])
                 else (fs, OpenRead path :: map Print (printed b1)
                             ++ [Print NoChangesNeeded])).
  { unfold update_projects_file, cats. rewrite Ht, Hw. reflexivity. }
  destruct (modified b1) eqn:Em.
  - rewrite E1. cbn [fst].
    assert (Ht1 : text (store fs path (content b1)) path = Some (content b1)).
    { simpl. now rewrite str_eqb_refl. }
    destruct (merge_again cats _ Hl Hn Hs) as [extra [Eagain Hextra]].
    fold b1 in Eagain.
    rewrite (update_unchanged cats path (content b1) _ extra Ht1).
    + eexists. split; [reflexivity|]. cbv beta iota delta [cats].
      rewrite writes_trace, reports_trace, Hextra. split; reflexivity.
    + rewrite Hp. exact Eagain.
  - rewrite E1. cbn [fst]. rewrite E1. eexists. split; [reflexivity|].
    rewrite writes_trace, reports_trace, <- Hflag. split; reflexivity.
Qed.

Lemma second_run_changes_nothing_witness :
  exists out,
    update_projects_file tool_entries default_path
      (fst (run tool_entries page_talks))
    = (fst (run tool_entries page_talks), out) /\
    writes out = [] /\
    reports_addition out = false.
Proof.
  apply (second_run_changes_nothing tool_entries default_path page_talks
           (projects_page page_talks));
    vm_compute; reflexivity.
Defined.

(** In the run of the witness the first entry is skipped on a bold mention
    inside one line, and the second is appended. *)
Example first_run_of_the_witness :
  printed (merge tool_entries page_talks)
  = [Skipping (repo planemo) ShortName; AddedEntry (repo pulsar) (lit "Tools")].
Proof. vm_compute; reflexivity. Qed.

(** C2, as stated, fails.  The first run on [page_talks] skips [bioblend]
    because the pattern matches from the bold [Planemo] to the bold [GCC],
    and appends [pulsar] between the two.  In the second run the pattern no
    longer matches, and [bioblend] is appended: the file is written again. *)
Lemma second_run_adds_skipped_entry :
  printed (merge talk_entries page_talks)
  = [Skipping (repo bioblend) ShortName; AddedEntry (repo pulsar) (lit "Tools")]
  /\
  text (fst (run talk_entries page_talks)) default_path
  = Some (line "## Notable Open-Source Contributions" ++ line ""
            ++ line "### Tools"
            ++ line "- **Planemo** command line"
            ++ line "- **[galaxyproject/pulsar](https://github.com/galaxyproject/pulsar)** - Added a runner. ([PRs](https://github.com/galaxyproject/pulsar/pulls))"
            ++ line ""
            ++ line "## Talks"
            ++ line "Gave a talk about bioblend at **GCC**")
  /\
  writes (snd (update_projects_file talk_entries default_path
                 (fst (run talk_entries page_talks))))
  = [(default_path,
      line "## Notable Open-Source Contributions" ++ line ""
        ++ line "### Tools"
        ++ line "- **Planemo** command line"
        ++ line "- **[galaxyproject/pulsar](https://github.com/galaxyproject/pulsar)** - Added a runner. ([PRs](https://github.com/galaxyproject/pulsar/pulls))"
        ++ line "- **[galaxyproject/bioblend](https://github.com/galaxyproject/bioblend)** - Fixed the client. ([PRs](https://github.com/galaxyproject/bioblend/pulls))"
        ++ line ""
        ++ line "## Talks"
        ++ line "Gave a talk about bioblend at **GCC**")].
Proof. repeat split; vm_compute; reflexivity. Qed.

(* ================================================================== *)
(** ** Dictionaries of lists *)

Section Dictionaries.

Context {V : Type}.

Lemma str_eqb_eq (a b : str) : str_eqb a b = true <-> a = b.
Proof.
  unfold str_eqb. destruct (list_eq_dec ascii_dec a b); split; congruence.
Qed.

Lemma str_eqb_sym (a b : str) : str_eqb a b = str_eqb b a.
Proof.
  unfold str_eqb.
  destruct (list_eq_dec ascii_dec a b), (list_eq_dec ascii_dec b a);
    congruence.
Qed.

Lemma dict_get_append (d : list (str * list V)) (k k' : str) (v : V) :
  dict_get (dict_append d k v) k'
  = if str_eqb k k'
    then Some (match dict_get d k with Some vs => vs | None => [] end ++ [v])
    else dict_get d k'.
Proof.
  unfold dict_get. induction d as [|[k0 vs] d IH]; simpl.
  - destruct (str_eqb k k'); reflexivity.
  - destruct (str_eqb k0 k) eqn:E0; simpl.
    + apply str_eqb_eq in E0. subst k0.
      destruct (str_eqb k k'); reflexivity.
    + destruct (str_eqb k0 k') eqn:E1; simpl.
      * apply str_eqb_eq in E1. subst k0.
        rewrite str_eqb_sym, E0. reflexivity.
      * exact IH.
Qed.

Lemma dict_append_keys (d : list (str * list V)) (k : str) (v : V) :
  map fst (dict_append d k v)
  = if existsb (fun k0 => str_eqb k0 k) (map fst d) then map fst d
    else map fst d ++ [k].
Proof.
  induction d as [|[k0 vs] d IH]; simpl; [reflexivity|].
  destruct (str_eqb k0 k); simpl; [reflexivity|].
  rewrite IH. now destruct (existsb _ (map fst d)).
Qed.

Lemma dict_append_NoDup (d : list (str * list V)) (k : str) (v : V) :
  NoDup (map fst d) -> NoDup (map fst (dict_append d k v)).
Proof.
  intros H. rewrite dict_append_keys.
  destruct (existsb (fun k0 => str_eqb k0 k) (map fst d)) eqn:E; [exact H|].
  apply NoDup_app; [exact H | repeat constructor; auto |].
  intros x Hx [<- | []].
  assert (existsb (fun k0 => str_eqb k0 k) (map fst d) = true); [|congruence].
  apply existsb_exists. exists k. split; [exact Hx | now apply str_eqb_eq].
Qed.

Lemma dict_append_nonempty (d : list (str * list V)) (k : str) (v : V) :
  (forall kv, In kv d -> snd kv <> []) ->
  forall kv, In kv (dict_append d k v) -> snd kv <> [].
Proof.
  induction d as [|[k0 vs] d IH]; simpl; intros H kv Hin.
  - destruct Hin as [<- | []]. discriminate.
  - destruct (str_eqb k0 k); destruct Hin as [<- | Hin]; simpl.
    + intros E. now apply app_eq_nil in E.
    + apply H. now right.
    + apply (H (k0, vs)). now left.
    + apply IH; [|exact Hin]. intros x Hx. apply H. now right.
Qed.

Lemma dict_get_In (d : list (str * list V)) (k : str) (vs : list V) :
  NoDup (map fst d) -> (In (k, vs) d <-> dict_get d k = Some vs).
Proof.
  unfold dict_get. induction d as [|[k0 v0] d IH]; simpl; intros Hn.
  - split; [contradiction | discriminate].
  - inversion Hn as [|? ? Hnot Hn']; subst.
    destruct (str_eqb k0 k) eqn:E; simpl.
    + apply str_eqb_eq in E. subst k0. split.
      * intros [H | H]; [congruence|]. exfalso. apply Hnot.
        apply (in_map fst) in H. exact H.
      * intros [= ->]. now left.
    + rewrite <- (IH Hn'). split; [|now right].
      intros [H | H]; [|exact H]. injection H as -> _.
      rewrite str_eqb_refl in E. discriminate.
Qed.

Context {A : Type} (f : A -> option (str * V)).

Lemma collect_NoDup (l : list A) :
  forall d, NoDup (map fst d) -> NoDup (map fst (collect f l d)).
Proof.
  unfold collect. induction l as [|x l IH]; intros d H; simpl; [exact H|].
  apply IH. destruct (f x) as [[k v]|]; [now apply dict_append_NoDup | exact H].
Qed.

Lemma collect_nonempty (l : list A) :
  forall d, (forall kv, In kv d -> snd kv <> []) ->
            forall kv, In kv (collect f l d) -> snd kv <> [].
Proof.
  unfold collect. induction l as [|x l IH]; intros d H; simpl; [exact H|].
  apply IH. destruct (f x) as [[k v]|]; [now apply dict_append_nonempty | exact H].
Qed.

(** What the loop leaves under a key: what was there, then the values filed
    under the key, in the order of the items. *)
Lemma collect_get (l : list A) (k : str) :
  forall d,
    dict_get (collect f l d) k
    = match dict_get d k, picks f k l with
      | None, [] => None
      | None, p => Some p
      | Some vs, p => Some (vs ++ p)
      end.
Proof.
  unfold collect, picks. induction l as [|x l IH]; intros d; simpl.
  - destruct (dict_get d k); [now rewrite app_nil_r | reflexivity].
  - rewrite IH. destruct (f x) as [[k' v]|]; simpl; [|reflexivity].
    rewrite dict_get_append. destruct (str_eqb k' k) eqn:E; simpl.
    + apply str_eqb_eq in E. subst k'.
      destruct (dict_get d k); simpl; [now rewrite <- app_assoc | reflexivity].
    + reflexivity.
Qed.

End Dictionaries.

(* ================================================================== *)
(** ** Grouping pull requests by repository *)

Section Grouping.

Lemma fold_left_ext {A B : Type} (f g : A -> B -> A) (l : list B) :
  (forall a b, f a b = g a b) ->
  forall a, fold_left f l a = fold_left g l a.
Proof.
  intros H. induction l as [|b l IH]; intros a; simpl; [reflexivity|].
  now rewrite H, IH.
Qed.

Lemma group_prs_by_repo_collect (username : str) (prs : list PR) :
  group_prs_by_repo username prs
  = collect (fun pr => if is_own username pr then None
                       else Some (repo_full_name pr, pr)) prs [].
Proof.
  unfold group_prs_by_repo, collect. apply fold_left_ext. intros d pr.
  fold (repo_full_name pr). fold (is_own username pr).
  now destruct (is_own username pr).
Qed.

Lemma picks_filter (username : str) (k : str) (prs : list PR) :
  picks (fun pr => if is_own username pr then None
                   else Some (repo_full_name pr, pr)) k prs
  = filter (fun pr => negb (is_own username pr)
                      && str_eqb (repo_full_name pr) k) prs.
Proof.
  unfold picks. induction prs as [|pr prs IH]; simpl; [reflexivity|].
  rewrite IH. destruct (is_own username pr); simpl; [reflexivity|].
  now destruct (str_eqb (repo_full_name pr) k).
Qed.

Lemma group_prs_by_repo_get (username : str) (prs : list PR) (k : str) :
  dict_get (group_prs_by_repo username prs) k
  = match filter (fun pr => negb (is_own username pr)
                            && str_eqb (repo_full_name pr) k) prs with
    | [] => None
    | vs => Some vs
    end.
Proof.
  rewrite group_prs_by_repo_collect, collect_get, picks_filter. reflexivity.
Qed.

Lemma group_prs_by_repo_NoDup (username : str) (prs : list PR) :
  NoDup (map fst (group_prs_by_repo username prs)).
Proof.
  rewrite group_prs_by_repo_collect. apply collect_NoDup. constructor.
Qed.

Lemma replace_aux_absent (old new : str) (fuel : nat) :
  forall s, contains old s = false -> replace_aux fuel old new s = s.
Proof.
  induction fuel as [|fuel IH]; intros s H; simpl; [reflexivity|].
  apply contains_false in H.
  destruct (startswith old s) eqn:E.
  - exfalso. apply H. apply startswith_iff in E. destruct E as [r ->].
    apply occurs_app_l.
  - destruct s as [|c t]; [reflexivity|]. f_equal. apply IH.
    apply contains_false. intros Ho. apply H.
    exact (occurs_in_app_r _ [c] t Ho).
Qed.

Lemma replace_leading (old new s : str) :
  old <> [] -> contains old s = false -> replace (old ++ s) old new = new ++ s.
Proof.
  intros Hne H. unfold replace. simpl replace_aux.
  assert (E : startswith old (old ++ s) = true)
    by (apply startswith_iff; now exists s).
  rewrite E. f_equal.
  replace (skipn (length old) (old ++ s)) with s.
  - now apply replace_aux_absent.
  - rewrite skipn_app, skipn_all, Nat.sub_diag. reflexivity.
Qed.

End Grouping.

(** X1.  The pull requests grouped under a repository name are exactly the
    fetched pull requests to that repository that are not to a repository of
    the user, in the order in which they were fetched; a name with no such
    pull request is not a key. *)
Theorem grouped_under_name (username : str) (prs : list PR) (k : str) :
  dict_get (group_prs_by_repo username prs) k
  = match filter (fun pr => negb (startswith (username ++ lit "/")
                                             (repo_full_name pr))
                            && str_eqb (repo_full_name pr) k) prs with
    | [] => None
    | vs => Some vs
    end.
Proof. exact (group_prs_by_repo_get username prs k). Qed.

(** X2.  The grouping has each repository once, no repository of the user,
    and no empty group; every grouped pull request was fetched and belongs to
    the repository it is filed under. *)
Theorem groups_well_formed (username : str) (prs : list PR) :
  NoDup (map fst (group_prs_by_repo username prs)) /\
  forall k vs, In (k, vs) (group_prs_by_repo username prs) ->
    vs <> [] /\
    startswith (username ++ lit "/") k = false /\
    forall pr, In pr vs -> In pr prs /\ repo_full_name pr = k.
Proof.
  pose proof (group_prs_by_repo_NoDup username prs) as Hn.
  split; [exact Hn|]. intros k vs Hin.
  apply (dict_get_In _ _ _ Hn) in Hin. rewrite group_prs_by_repo_get in Hin.
  set (keep := fun pr => negb (is_own username pr)
                         && str_eqb (repo_full_name pr) k) in Hin.
  assert (Hvs : vs = filter keep prs /\ vs <> []).
  { destruct (filter keep prs); [discriminate|]. injection Hin as <-.
    split; [reflexivity | discriminate]. }
  destruct Hvs as [-> Hne]. split; [exact Hne|].
  assert (Hall : forall pr, In pr (filter keep prs) ->
                            In pr prs /\ is_own username pr = false
                            /\ repo_full_name pr = k).
  { intros pr Hp. apply filter_In in Hp. destruct Hp as [Hp Hk].
    unfold keep in Hk. apply andb_true_iff in Hk. destruct Hk as [Ho Hk].
    apply negb_true_iff in Ho. apply str_eqb_eq in Hk. auto. }
  split.
  - destruct (filter keep prs) as [|pr rest] eqn:E; [congruence|].
    destruct (Hall pr (or_introl eq_refl)) as [_ [Ho Hk]].
    unfold is_own in Ho. now rewrite Hk in Ho.
  - intros pr Hp. destruct (Hall pr Hp) as [H1 [_ H2]]. auto.
Qed.

(** X3.  For a pull request whose repository URL is the API prefix followed
    by a name in which the prefix does not occur again, the name the grouping
    uses is that name. *)
Theorem repo_full_name_of_api_url (pr : PR) (name : str) :
  repository_url pr = lit "https://api.github.com/repos/" ++ name ->
  contains (lit "https://api.github.com/repos/") name = false ->
  repo_full_name pr = name.
Proof.
  intros Hu Hc. unfold repo_full_name. rewrite Hu.
  rewrite replace_leading; [reflexivity | discriminate | exact Hc].
Qed.

Lemma repo_full_name_of_api_url_witness :
  repo_full_name (pr_to "galaxyproject/planemo" 7) = lit "galaxyproject/planemo".
Proof.
  apply (repo_full_name_of_api_url (pr_to "galaxyproject/planemo" 7)
           (lit "galaxyproject/planemo")); vm_compute; reflexivity.
Defined.

(* ================================================================== *)
(** ** Sorting the repositories by number of pull requests *)

Section Sorting.

Context {K V : Type}.

Let more (x y : K * list V) : Prop := (length (snd y) <= length (snd x))%nat.

Let has (n : nat) (x : K * list V) : bool := (length (snd x) =? n)%nat.

Lemma insert_by_count_perm (x : K * list V) (l : list (K * list V)) :
  Permutation (insert_by_count x l) (x :: l).
Proof.
  induction l as [|y t IH]; simpl; [reflexivity|].
  destruct (length (snd y) <? length (snd x))%nat; [reflexivity|].
  rewrite IH. apply perm_swap.
Qed.

Lemma insert_by_count_sorted (x : K * list V) (l : list (K * list V)) :
  StronglySorted more l -> StronglySorted more (insert_by_count x l).
Proof.
  induction l as [|y t IH]; simpl; intros H.
  - repeat constructor.
  - inversion H as [|? ? Ht Hy]; subst.
    destruct (Nat.ltb_spec (length (snd y)) (length (snd x))) as [L|L].
    + constructor; [exact H|]. constructor; [unfold more; lia|].
      rewrite Forall_forall in Hy |- *. intros z Hz. specialize (Hy z Hz).
      unfold more in *. lia.
    + constructor; [now apply IH|].
      rewrite Forall_forall in Hy |- *. intros z Hz.
      apply (Permutation_in _ (insert_by_count_perm x t)) in Hz.
      destruct Hz as [<- | Hz]; [exact L | now apply Hy].
Qed.

Lemma insert_by_count_filter (n : nat) (x : K * list V)
    (l : list (K * list V)) :
  StronglySorted more l ->
  filter (has n) (insert_by_count x l)
  = filter (has n) l ++ (if has n x then [x] else []).
Proof.
  induction l as [|y t IH]; simpl; intros H.
  - now destruct (has n x).
  - inversion H as [|? ? Ht Hy]; subst.
    destruct (Nat.ltb_spec (length (snd y)) (length (snd x))) as [L|L].
    + simpl. destruct (has n x) eqn:Ex; [|now rewrite app_nil_r].
      unfold has in Ex. apply Nat.eqb_eq in Ex.
      assert (Ey : has n y = false) by (unfold has; apply Nat.eqb_neq; lia).
      rewrite Ey.
      assert (Et : filter (has n) t = []).
      { rewrite Forall_forall in Hy. clear -Hy L Ex.
        induction t as [|z t IHt]; [reflexivity|]. simpl.
        assert (Hz : more y z) by (apply Hy; now left).
        assert (E : has n z = false)
          by (unfold has; apply Nat.eqb_neq; unfold more in Hz; lia).
        rewrite E. apply IHt. intros w Hw. apply Hy. now right. }
      rewrite Et. reflexivity.
    + simpl. rewrite (IH Ht). now destruct (has n y).
Qed.

Lemma sorted_by_count_fold (l : list (K * list V)) :
  forall acc,
    StronglySorted more acc ->
    Permutation (fold_left (fun acc x => insert_by_count x acc) l acc)
                (acc ++ l) /\
    StronglySorted more (fold_left (fun acc x => insert_by_count x acc) l acc) /\
    forall n,
      filter (has n) (fold_left (fun acc x => insert_by_count x acc) l acc)
      = filter (has n) acc ++ filter (has n) l.
Proof.
  induction l as [|x l IH]; intros acc Hs; simpl.
  - rewrite app_nil_r. repeat split; auto. intros n. now rewrite app_nil_r.
  - destruct (IH (insert_by_count x acc) (insert_by_count_sorted x acc Hs))
      as [Hp [Hs' Hf]].
    split; [|split].
    + rewrite Hp, insert_by_count_perm. apply Permutation_middle.
    + exact Hs'.
    + intros n. rewrite Hf, insert_by_count_filter by exact Hs.
      rewrite <- app_assoc. now destruct (has n x).
Qed.

End Sorting.

(** X4.  Sorting the repositories keeps every repository with its pull
    requests, each as often as it was given, and puts them in order of
    falling number of pull requests. *)
Theorem sorted_by_count_descending {K V : Type} (l : list (K * list V)) :
  Permutation (sorted_by_count l) l /\
  StronglySorted (fun x y => (length (snd y) <= length (snd x))%nat)
                 (sorted_by_count l).
Proof.
  destruct (sorted_by_count_fold l [] (SSorted_nil _)) as [Hp [Hs _]].
  split; [exact Hp | exact Hs].
Qed.

(** X5.  The sort is stable: repositories with the same number of pull
    requests stay in the order in which they were given. *)
Theorem sorted_by_count_stable {K V : Type} (l : list (K * list V)) (n : nat) :
  filter (fun x => length (snd x) =? n)%nat (sorted_by_count l)
  = filter (fun x => length (snd x) =? n)%nat l.
Proof.
  destruct (sorted_by_count_fold l [] (SSorted_nil _)) as [_ [_ Hf]].
  exact (Hf n).
Qed.

(* ================================================================== *)
(** ** Categories *)

(** X6.  For ASCII names: every repository is put in one of the five
    sections, and two names that differ only in the case of their letters are
    put in the same section. *)
Theorem categorize_repo_ignores_case (a b : str) :
  is_ascii a = true -> is_ascii b = true ->
  map lowercase_of a = map lowercase_of b ->
  In (categorize_repo a) categories /\ categorize_repo a = categorize_repo b.
Proof.
  intros _ _ H. split.
  - unfold categorize_repo, categories.
    repeat match goal with
           | |- context [if ?c then _ else _] => destruct c
           end; simpl; auto 6.
  - unfold categorize_repo. now rewrite !lower_lowercase_of, H.
Qed.

Lemma categorize_repo_ignores_case_witness :
  categorize_repo (lit "GalaxyProject/Planemo") = lit "Galaxy Project Core".
Proof.
  rewrite (proj2 (categorize_repo_ignores_case
                    (lit "GalaxyProject/Planemo") (lit "galaxyproject/planemo")
                    eq_refl eq_refl eq_refl)).
  reflexivity.
Defined.

(* ================================================================== *)
(** ** Generating the entries *)

Section Generating.

Variables (sv : services) (username : str).

Let file (item : str * list PR) : option (str * Entry) :=
  Some (categorize_repo (fst item), entry_of sv username item).

Let calls (item : str * list PR) : list effect :=
  Print (Generating (fst item))
    :: snd (generate_project_description sv (fst item) (snd item)).

Lemma generate_fold (l : list (str * list PR)) :
  forall st : Categorized * list effect,
    fold_left
      (fun (st : Categorized * list effect) (item : str * list PR) =>
         let (categorized, out) := st in
         let (repo_name, prs) := item in
         let (answer, calls) :=
           generate_project_description sv repo_name prs in
         let description :=
           match answer with
           | Some ((_ :: _) as d) => d
           | _ => fallback_description (length prs)
           end in
         let entry := mkEntry repo_name description
                              (pulls_url repo_name username) (length prs) in
         (dict_append categorized (categorize_repo repo_name) entry,
          out ++ Print (Generating repo_name) :: calls))
      l st
    = (collect file l (fst st), snd st ++ flat_map calls l).
Proof.
  induction l as [|[repo_name prs] l IH]; intros [categorized out]; simpl.
  - now rewrite app_nil_r.
  - destruct (generate_project_description sv repo_name prs)
      as [answer made] eqn:E.
    rewrite IH. simpl. unfold calls at 2, entry_of. simpl. rewrite E. simpl.
    now rewrite <- app_assoc.
Qed.

Lemma description_effects (repo_name : str) (prs : list PR) :
  filter is_request (snd (generate_project_description sv repo_name prs))
  = [ChatCompletion repo_name] /\
  existsb is_file_effect (snd (generate_project_description sv repo_name prs))
  = false.
Proof.
  unfold generate_project_description.
  destruct (chat_completion sv repo_name (firstn 15 prs)); split; reflexivity.
Qed.

Lemma generate_project_entries_eq (prs_by_repo : list (str * list PR)) :
  generate_project_entries sv username prs_by_repo
  = (collect file (sorted_by_count prs_by_repo) [],
     flat_map calls (sorted_by_count prs_by_repo)).
Proof. unfold generate_project_entries. now rewrite generate_fold. Qed.

Lemma picks_file (c : str) (l : list (str * list PR)) :
  picks file c l
  = map (entry_of sv username)
        (filter (fun item => str_eqb (categorize_repo (fst item)) c) l).
Proof.
  unfold picks, file. induction l as [|item l IH]; simpl; [reflexivity|].
  rewrite IH. now destruct (str_eqb (categorize_repo (fst item)) c).
Qed.

Lemma fallback_description_nonempty (n : nat) : fallback_description n <> [].
Proof. discriminate. Qed.

Lemma entry_of_description (item : str * list PR) :
  description (entry_of sv username item) <> [].
Proof.
  unfold entry_of. cbn [description].
  destruct (fst (generate_project_description sv (fst item) (snd item)))
    as [[|c t]|];
    [apply fallback_description_nonempty | intros H; discriminate H
     | apply fallback_description_nonempty].
Qed.

Lemma generated_get (prs_by_repo : list (str * list PR)) (c : str) :
  dict_get (fst (generate_project_entries sv username prs_by_repo)) c
  = match map (entry_of sv username)
              (filter (fun item => str_eqb (categorize_repo (fst item)) c)
                      (sorted_by_count prs_by_repo)) with
    | [] => None
    | es => Some es
    end.
Proof.
  rewrite generate_project_entries_eq. simpl.
  rewrite collect_get, picks_file. reflexivity.
Qed.

Lemma generated_NoDup (prs_by_repo : list (str * list PR)) :
  NoDup (map fst (fst (generate_project_entries sv username prs_by_repo))).
Proof.
  rewrite generate_project_entries_eq. simpl. apply collect_NoDup. constructor.
Qed.

(** An entry of the result is the entry built for one of the repositories
    given, and it is filed under the category of that repository. *)
Lemma generated_entry (prs_by_repo : list (str * list PR)) (c : str)
    (es : list Entry) (e : Entry) :
  In (c, es) (fst (generate_project_entries sv username prs_by_repo)) ->
  In e es ->
  exists item, In item prs_by_repo /\ e = entry_of sv username item /\
               c = categorize_repo (fst item).
Proof.
  intros Hin He.
  apply (dict_get_In _ _ _ (generated_NoDup prs_by_repo)) in Hin.
  rewrite generated_get in Hin.
  set (l := filter _ _) in Hin.
  assert (Ees : es = map (entry_of sv username) l)
    by (destruct (map (entry_of sv username) l); congruence).
  subst es. apply in_map_iff in He. destruct He as [item [<- Hi]].
  unfold l in Hi. apply filter_In in Hi. destruct Hi as [Hi Hc].
  apply str_eqb_eq in Hc. exists item. repeat split; auto.
  apply (Permutation_in _ (proj1 (sorted_by_count_fold prs_by_repo []
                                     (SSorted_nil _)))) in Hi.
  exact Hi.
Qed.

End Generating.

(** X7.  The entries listed under a category are the entries built for the
    repositories of that category, in the order of the sort, so the
    repository with the most pull requests comes first; a category with no
    repository is not a key of the result. *)
Theorem entries_by_category (sv : services) (username : str)
    (prs_by_repo : list (str * list PR)) (c : str) :
  dict_get (fst (generate_project_entries sv username prs_by_repo)) c
  = match map (entry_of sv username)
              (filter (fun item => str_eqb (categorize_repo (fst item)) c)
                      (sorted_by_count prs_by_repo)) with
    | [] => None
    | es => Some es
    end.
Proof. exact (generated_get sv username prs_by_repo c). Qed.

(** X8.  The result has each category once and no category without an
    entry.  Every entry is filed under the category of its repository, has a
    description that is not empty, links to the merged pull requests of the
    user in that repository, and counts the pull requests given for it. *)
Theorem generated_entries_well_formed (sv : services) (username : str)
    (prs_by_repo : list (str * list PR)) :
  let result := fst (generate_project_entries sv username prs_by_repo) in
  NoDup (map fst result) /\
  forall c es, In (c, es) result ->
    es <> [] /\
    forall e, In e es ->
      c = categorize_repo (repo e) /\
      description e <> [] /\
      pr_url e = lit "https://github.com/" ++ repo e
                   ++ lit "/pulls?q=is%3Apr+author%3A" ++ username
                   ++ lit "+is%3Amerged" /\
      exists prs, In (repo e, prs) prs_by_repo /\ pr_count e = length prs.
Proof.
  intros result. split; [apply generated_NoDup|]. intros c es Hin. split.
  - unfold result in Hin. rewrite generate_project_entries_eq in Hin.
    simpl in Hin.
    exact (collect_nonempty _ _ [] (fun kv (H : In kv []) => match H with end)
                            (c, es) Hin).
  - intros e He.
    destruct (generated_entry sv username prs_by_repo c es e Hin He)
      as [[repo_name prs] [Hi [-> ->]]].
    repeat split; try reflexivity.
    + apply entry_of_description.
    + exists prs. split; [exact Hi | reflexivity].
Qed.

Lemma generated_effects (sv : services) (username : str)
    (prs_by_repo : list (str * list PR)) :
  filter is_request (snd (generate_project_entries sv username prs_by_repo))
  = map (fun item => ChatCompletion (fst item)) (sorted_by_count prs_by_repo)
  /\ existsb is_file_effect
       (snd (generate_project_entries sv username prs_by_repo)) = false.
Proof.
  rewrite generate_project_entries_eq.
  cbn [snd]. generalize (sorted_by_count prs_by_repo) as l.
  induction l as [|[repo_name prs] l [IH1 IH2]]; [split; reflexivity|].
  cbn [flat_map map fst snd].
  destruct (description_effects sv repo_name prs) as [E1 E2].
  rewrite <- app_comm_cons. cbn [filter existsb is_request is_file_effect orb].
  rewrite filter_app, existsb_app, E1, E2, IH1, IH2. split; reflexivity.
Qed.

(** X9.  Generating the entries sends one request to the model for each
    repository, in the order of the sort, and touches no file. *)
Theorem one_request_per_repository (sv : services) (username : str)
    (prs_by_repo : list (str * list PR)) :
  let out := snd (generate_project_entries sv username prs_by_repo) in
  filter is_request out
  = map (fun item => ChatCompletion (fst item)) (sorted_by_count prs_by_repo)
  /\ existsb is_file_effect out = false.
Proof. exact (generated_effects sv username prs_by_repo). Qed.

(** X10.  When the model fails for a repository, or answers nothing but
    white space, the entry of the repository gets the description
    [Contributed N pull request(s) ...] with its own count. *)
Theorem fallback_when_model_fails (sv : services) (username : str)
    (prs_by_repo : list (str * list PR)) (c : str) (es : list Entry)
    (e : Entry) :
  (forall repo_name prs,
      In (repo_name, prs) prs_by_repo ->
      match chat_completion sv repo_name (firstn 15 prs) with
      | Some answer => strip answer = []
      | None => True
      end) ->
  In (c, es) (fst (generate_project_entries sv username prs_by_repo)) ->
  In e es ->
  description e = fallback_description (pr_count e).
Proof.
  intros Hfail Hin He.
  destruct (generated_entry sv username prs_by_repo c es e Hin He)
    as [[repo_name prs] [Hi [-> _]]].
  specialize (Hfail repo_name prs Hi). unfold entry_of. simpl.
  unfold generate_project_description.
  destruct (chat_completion sv repo_name (firstn 15 prs)); simpl;
    [now rewrite Hfail | reflexivity].
Qed.

Lemma fallback_when_model_fails_witness :
  description (entry_of silent (lit "arash77")
                        (lit "org/repo", [pr_to "org/repo" 1]))
  = lit "Contributed 1 pull request to improve functionality and fix issues.".
Proof.
  apply (fallback_when_model_fails silent (lit "arash77") three_repos
           (lit "Other Open-Source Projects")
           [entry_of silent (lit "arash77")
                     (lit "org/repo", [pr_to "org/repo" 1])]);
    [intros; exact I | vm_compute; auto | now left].
Defined.

Example description_is_stripped :
  map description
      (concat (map snd (fst (generate_project_entries
                               padding (lit "arash77")
                               [(lit "org/repo", [pr_to "org/repo" 1])]))))
  = [lit "Improved the docs."].
Proof. reflexivity. Qed.

(* ================================================================== *)
(** ** The effects of [main] *)

Section Effects.

Lemma writes_app (a b : list effect) : writes (a ++ b) = writes a ++ writes b.
Proof.
  induction a as [|e a IH]; simpl; [reflexivity|].
  destruct e; simpl; now rewrite ?IH.
Qed.

Lemma writes_no_file (t : list effect) :
  existsb is_file_effect t = false -> writes t = [].
Proof.
  induction t as [|e t IH]; simpl; [reflexivity|].
  destruct e; simpl; intros H; try discriminate H; now apply IH.
Qed.

Lemma prints_no_file (out : list message) :
  existsb is_file_effect (map Print out) = false.
Proof. induction out; simpl; auto. Qed.

Lemma prints_no_request (out : list message) :
  filter is_request (map Print out) = [].
Proof. induction out; simpl; auto. Qed.

(** The shapes of a run of [update_projects_file]: it sends no request; it
    leaves the disk and writes nothing, or stores one text at the path and
    writes it once, or fails in the write and leaves a part of the text at
    the path. *)
Lemma update_shape (categorized_entries : Categorized) (path : str)
    (fs : files) :
  let r := update_projects_file categorized_entries path fs in
  filter is_request (snd r) = [] /\
  ((fst r = fs /\ writes (snd r) = []) \/
   (exists data, fst r = store fs path data /\
                 writes (snd r) = [(path, data)]) \/
   (exists part, fst r = store fs path part /\ writes (snd r) = [])).
Proof.
  unfold update_projects_file.
  destruct categorized_entries as [|item rest]; [simpl; auto|].
  destruct (text fs path) as [bytes|]; [|simpl; auto].
  cbv zeta. set (b := merge (item :: rest) (prune (universal_newlines bytes))).
  destruct (modified b); [destruct (on_write fs path)|]; cbn [fst snd];
    rewrite writes_trace; (split; [cbn [filter is_request];
      rewrite filter_app, prints_no_request; reflexivity|]).
  - right. left. exists (content b). auto.
  - left. auto.
  - right. right. eexists. split; [reflexivity|]. reflexivity.
  - left. auto.
Qed.

Lemma fetch_recent_prs_effects (sv : services) (username : str) :
  filter is_request (snd (fetch_recent_prs sv username))
  = [SearchIssues username] /\
  existsb is_file_effect (snd (fetch_recent_prs sv username)) = false /\
  (length (fst (fetch_recent_prs sv username)) <= 100)%nat.
Proof.
  unfold fetch_recent_prs.
  destruct (search_issues sv username); cbn [fst snd filter is_request existsb
                                              is_file_effect orb].
  - repeat split. apply firstn_le_length.
  - repeat split. simpl. lia.
Qed.

Lemma dict_append_length {V : Type} (d : list (str * list V)) (k : str)
    (v : V) :
  (length (dict_append d k v) <= S (length d))%nat.
Proof.
  induction d as [|[k0 vs] d IH]; simpl; [lia|].
  destruct (str_eqb k0 k); simpl; lia.
Qed.

Lemma collect_length {A V : Type} (f : A -> option (str * V)) (l : list A) :
  forall d, (length (collect f l d) <= length d + length l)%nat.
Proof.
  unfold collect. induction l as [|x l IH]; intros d; cbn [fold_left length].
  - lia.
  - destruct (f x) as [[k v]|].
    + specialize (IH (dict_append d k v)).
      pose proof (dict_append_length d k v). lia.
    + specialize (IH d). lia.
Qed.

Lemma group_prs_by_repo_length (username : str) (prs : list PR) :
  (length (group_prs_by_repo username prs) <= length prs)%nat.
Proof.
  rewrite group_prs_by_repo_collect.
  exact (collect_length _ prs []).
Qed.

Lemma group_all_own (username : str) (prs : list PR) :
  forallb (is_own username) prs = true -> group_prs_by_repo username prs = [].
Proof.
  intros H. rewrite group_prs_by_repo_collect. unfold collect.
  induction prs as [|pr prs IH]; simpl in *; [reflexivity|].
  apply andb_true_iff in H. destruct H as [Ho H]. rewrite Ho. now apply IH.
Qed.

End Effects.

(* ================================================================== *)
(** ** A run of [main] *)

Section Running.

Lemma update_no_request (categorized_entries : Categorized) (path : str)
    (fs : files) :
  filter is_request (snd (update_projects_file categorized_entries path fs))
  = [].
Proof. exact (proj1 (update_shape categorized_entries path fs)). Qed.

Lemma update_other_files (categorized_entries : Categorized) (path : str)
    (fs : files) (p : str) :
  str_eqb p path = false ->
  text (fst (update_projects_file categorized_entries path fs)) p = text fs p.
Proof.
  intros Hp.
  destruct (update_shape categorized_entries path fs)
    as [_ [[-> _] | [[data [-> _]] | [part [-> _]]]]];
    simpl; now rewrite ?Hp.
Qed.

Lemma update_writes_path (categorized_entries : Categorized) (path : str)
    (fs : files) :
  writes (snd (update_projects_file categorized_entries path fs)) = [] \/
  exists data,
    writes (snd (update_projects_file categorized_entries path fs))
    = [(path, data)].
Proof.
  destruct (update_shape categorized_entries path fs)
    as [_ [[_ ->] | [[data [_ ->]] | [part [_ ->]]]]]; eauto.
Qed.

Lemma filter_request_prints (t : list effect) :
  existsb is_external t = false -> filter is_request t = [].
Proof.
  induction t as [|e t IH]; simpl; [reflexivity|].
  destruct e; simpl; intros H; try discriminate H; now apply IH.
Qed.

(** The trace of [main] when the token is set: what is printed and
    requested before the file is touched, then the effects of the update. *)
Lemma main_trace (w : world) :
  has_token w = true ->
  let username := username_of w in
  let recent_prs := fst (fetch_recent_prs (remote w) username) in
  let prs_by_repo := group_prs_by_repo username recent_prs in
  let generated := generate_project_entries (remote w) username prs_by_repo in
  let updated := update_projects_file (fst generated) default_path (disk w) in
  let head := Print (Fetching username)
                :: snd (fetch_recent_prs (remote w) username)
                ++ [Print (FoundPRs (length recent_prs))] in
  main w
  = match recent_prs with
    | [] => (disk w, head ++ [Print NoneInLast30Days])
    | _ :: _ =>
        (fst updated,
         head ++ Print (ContributionsTo (length prs_by_repo))
           :: snd generated ++ snd updated ++ [Print UpdateComplete])
    end.
Proof.
  unfold has_token, main, username_of. intros Ht.
  destruct (environ w (lit "GITHUB_TOKEN")) as [[|c t]|]; try discriminate Ht.
  cbv zeta.
  destruct (fetch_recent_prs (remote w) _) as [recent_prs fetched].
  cbn [fst snd]. destruct recent_prs as [|pr prs]; [reflexivity|].
  destruct (generate_project_entries _ _ _) as [project_entries generated].
  cbn [fst snd].
  destruct (update_projects_file _ _ _) as [disk' updated]. reflexivity.
Qed.

Lemma group_nil (username : str) : group_prs_by_repo username [] = [].
Proof. reflexivity. Qed.

End Running.

(** X11.  With a token, [main] sends one query to the issue search and then
    one request to the model for each repository of the grouping, the
    repository with the most pull requests first; it sends nothing else. *)
Theorem main_requests (w : world) :
  has_token w = true ->
  filter is_request (snd (main w))
  = SearchIssues (username_of w)
      :: map (fun item => ChatCompletion (fst item))
             (sorted_by_count
                (group_prs_by_repo (username_of w)
                   (fst (fetch_recent_prs (remote w) (username_of w))))).
Proof.
  intros Ht. rewrite (main_trace w Ht). cbv zeta.
  destruct (fetch_recent_prs_effects (remote w) (username_of w))
    as [Ef [_ _]].
  destruct (fst (fetch_recent_prs (remote w) (username_of w)))
    as [|pr prs] eqn:Er; cbn [snd].
  - repeat first [rewrite filter_app | progress cbn [filter is_request app]].
    rewrite Ef. reflexivity.
  - repeat first [rewrite filter_app | progress cbn [filter is_request app]].
    rewrite Ef, (proj1 (generated_effects _ _ _)), update_no_request.
    cbn [app]. now rewrite !app_nil_r.
Qed.

Lemma main_requests_witness :
  filter is_request (snd (main busy_world))
  = [SearchIssues (lit "arash77");
     ChatCompletion (lit "galaxyproject/planemo");
     ChatCompletion (lit "org/repo")].
Proof. exact (main_requests busy_world eq_refl). Defined.

(** X12.  In a run of [main] every request comes before every operation on
    the file: the trace is a first part without file operations followed by a
    second part without requests.  The file is written at most once, at
    [content/projects/index.md]. *)
Theorem main_requests_before_files (w : world) :
  (exists before after,
      snd (main w) = before ++ after /\
      existsb is_file_effect before = false /\
      filter is_request after = []) /\
  (writes (snd (main w)) = [] \/
   exists data, writes (snd (main w)) = [(default_path, data)]).
Proof.
  destruct (has_token w) eqn:Ht.
  - rewrite (main_trace w Ht). cbv zeta.
    destruct (fetch_recent_prs_effects (remote w) (username_of w))
      as [_ [Ef _]].
    set (head := Print (Fetching (username_of w))
                   :: snd (fetch_recent_prs (remote w) (username_of w))
                   ++ [Print (FoundPRs _)]).
    assert (Hh : existsb is_file_effect head = false).
    { unfold head. cbn [existsb is_file_effect orb].
      rewrite existsb_app, Ef. reflexivity. }
    destruct (fst (fetch_recent_prs (remote w) (username_of w)))
      as [|pr prs] eqn:Er; cbn [snd].
    + split.
      * exists (head ++ [Print NoneInLast30Days]), [].
        rewrite app_nil_r, existsb_app, Hh. auto.
      * left. apply writes_no_file. rewrite existsb_app, Hh. reflexivity.
    + set (prs_by_repo := group_prs_by_repo _ _).
      set (generated := generate_project_entries _ _ _).
      set (updated := update_projects_file _ _ _).
      assert (Hg : existsb is_file_effect
                     (head ++ Print (ContributionsTo (length prs_by_repo))
                        :: snd generated) = false).
      { rewrite existsb_app, Hh. cbn [existsb is_file_effect orb].
        exact (proj2 (generated_effects _ _ _)). }
      change (head ++ Print (ContributionsTo (length prs_by_repo))
                :: snd generated ++ snd updated ++ [Print UpdateComplete])
        with (head ++ (Print (ContributionsTo (length prs_by_repo))
                         :: snd generated)
                ++ snd updated ++ [Print UpdateComplete]).
      rewrite app_assoc. split.
      * eexists _, _. split; [reflexivity|]. split; [exact Hg|].
        rewrite filter_app. unfold updated. now rewrite update_no_request.
      * rewrite writes_app, (writes_no_file _ Hg), writes_app.
        cbn [writes app]. rewrite app_nil_r.
        apply update_writes_path.
  - unfold has_token in Ht. unfold main.
    destruct (environ w (lit "GITHUB_TOKEN")) as [[|c t]|];
      try discriminate Ht; cbn [snd]; (split; [|now left]);
      exists [Print TokenNotSet], []; auto.
Qed.

(** X13.  A run of [main] leaves every file other than
    [content/projects/index.md] as it was. *)
Theorem main_keeps_other_files (w : world) (p : str) :
  str_eqb p default_path = false ->
  text (fst (main w)) p = text (disk w) p.
Proof.
  intros Hp. destruct (has_token w) eqn:Ht.
  - rewrite (main_trace w Ht). cbv zeta.
    destruct (fst (fetch_recent_prs (remote w) (username_of w)));
      cbn [fst]; [reflexivity|].
    now apply update_other_files.
  - unfold has_token in Ht. unfold main.
    destruct (environ w (lit "GITHUB_TOKEN")) as [[|c t]|];
      try discriminate Ht; reflexivity.
Qed.

Lemma main_keeps_other_files_witness :
  text (fst (main busy_world)) (lit "README.md")
  = text (disk busy_world) (lit "README.md")
  /\ text (fst (main busy_world)) default_path
     <> text (disk busy_world) default_path.
Proof.
  split; [apply (main_keeps_other_files busy_world); reflexivity|].
  vm_compute. discriminate.
Defined.

(** X14.  When every pull request found is to a repository of the user,
    [main] sends the one query to the search, asks the model for nothing,
    and does not open the file. *)
Theorem main_own_work_only (w : world) :
  has_token w = true ->
  forallb (is_own (username_of w))
          (fst (fetch_recent_prs (remote w) (username_of w))) = true ->
  fst (main w) = disk w /\
  existsb is_file_effect (snd (main w)) = false /\
  filter is_request (snd (main w)) = [SearchIssues (username_of w)].
Proof.
  intros Ht Hown. rewrite (main_trace w Ht). cbv zeta.
  rewrite (group_all_own _ _ Hown).
  destruct (fetch_recent_prs_effects (remote w) (username_of w))
    as [Er [Ef _]].
  destruct (fst (fetch_recent_prs (remote w) (username_of w))) as [|pr prs];
    cbn [fst snd generate_project_entries sorted_by_count fold_left
         update_projects_file length app];
    (split; [reflexivity|]); split;
    repeat first [rewrite filter_app | rewrite existsb_app
                 | progress cbn [filter is_request existsb is_file_effect
                                 orb app]];
    rewrite ?Er, ?Ef; reflexivity.
Qed.

Lemma main_own_work_only_witness :
  fst (main own_work_world) = disk own_work_world /\
  existsb is_file_effect (snd (main own_work_world)) = false /\
  filter is_request (snd (main own_work_world))
  = [SearchIssues (lit "arash77")].
Proof. exact (main_own_work_only own_work_world eq_refl eq_refl). Defined.

(* ================================================================== *)
(** ** The text is only added to *)

Section Keeping.

Lemma subseq_refl (s : str) : subseq s s.
Proof. induction s; [apply subseq_nil | now apply subseq_keep]. Qed.

Lemma subseq_trans (a b c : str) : subseq a b -> subseq b c -> subseq a c.
Proof.
  intros Hab Hbc. revert a Hab.
  induction Hbc as [|x b c Hbc IH|x b c Hbc IH]; intros a Hab.
  - exact Hab.
  - apply subseq_skip. now apply IH.
  - inversion Hab; subst.
    + apply subseq_skip. now apply IH.
    + apply subseq_keep. now apply IH.
Qed.

Lemma subseq_app_r (new s : str) : subseq s (new ++ s).
Proof.
  induction new; simpl; [apply subseq_refl | now apply subseq_skip].
Qed.

Lemma subseq_insert (l new r : str) : subseq (l ++ r) (l ++ new ++ r).
Proof.
  induction l; simpl; [apply subseq_app_r | now apply subseq_keep].
Qed.

Lemma subseq_splice (content new : str) (z : Z) :
  subseq content (splice content z new).
Proof.
  rewrite splice_at.
  rewrite <- (firstn_skipn (clamp content z) content) at 1.
  apply subseq_insert.
Qed.

Lemma add_entry_subseq (category : str) (b : buffer) (e : Entry) :
  subseq (content b) (content (add_entry category b e)).
Proof.
  destruct (add_entry_text category b e) as [l [r [-> [-> | ->]]]].
  - apply subseq_refl.
  - apply subseq_insert.
Qed.

Lemma add_entries_subseq (category : str) (entries : list Entry) :
  forall b, subseq (content b)
                   (content (fold_left (add_entry category) entries b)).
Proof.
  induction entries as [|e es IH]; intros b; simpl; [apply subseq_refl|].
  eapply subseq_trans; [apply add_entry_subseq | apply IH].
Qed.

Lemma merge_category_subseq (b : buffer) (item : str * list Entry) :
  subseq (content b) (content (merge_category b item)).
Proof.
  destruct item as [category entries]. unfold merge_category.
  destruct (negb (contains (section_pattern category) (content b))).
  - unfold create_category. destruct (contains notable_section (content b));
      [apply subseq_splice | apply subseq_refl].
  - apply add_entries_subseq.
Qed.

Lemma merge_loop_subseq (categorized_entries : Categorized) :
  forall b, subseq (content b)
                   (content (fold_left merge_category categorized_entries b)).
Proof.
  induction categorized_entries as [|item rest IH]; intros b; simpl;
    [apply subseq_refl|].
  eapply subseq_trans; [apply merge_category_subseq | apply IH].
Qed.

End Keeping.

(** X15.  The merge removes and reorders nothing: the text it starts from is
    the text it ends with, with the inserted characters left out.  So the
    text that a run writes has every character of the pruned document, in
    order. *)
Theorem merge_keeps_text (categorized_entries : Categorized) (path : str)
    (fs : files) :
  (forall text, subseq text (content (merge categorized_entries text))) /\
  (forall p data,
      In (p, data)
         (writes (snd (update_projects_file categorized_entries path fs))) ->
      exists bytes, text fs path = Some bytes /\
                    subseq (prune (universal_newlines bytes)) data).
Proof.
  split.
  - intros text.
    exact (merge_loop_subseq categorized_entries (mkBuffer text false [])).
  - intros p data. unfold update_projects_file.
    destruct categorized_entries as [|item rest]; [intros []|].
    destruct (text fs path) as [bytes|]; [|intros []].
    cbv zeta.
    set (b := merge (item :: rest) (prune (universal_newlines bytes))).
    pose proof (merge_loop_subseq (item :: rest)
                  (mkBuffer (prune (universal_newlines bytes)) false []))
      as Hs.
    destruct (modified b); [destruct (on_write fs path)|]; cbn [snd];
      rewrite writes_trace; cbn [writes In]; try contradiction.
    intros [[= <- <-] | []]. exists bytes. split; [reflexivity | exact Hs].
Qed.

(* ================================================================== *)
(** ** What pruning cuts out *)

Section Cutting.









End Cutting.

